(** * goserver: the bulk-transfer engine of the network-quality server

    A shallow embedding of [server.go]: the download handlers and their
    chunked body writer, the upload handler and its counting discard sink,
    the error classifier, and the discovery-document handler with its
    one-time initialiser.

    Conventions
    - [int64] and [uint64] values are integers in [Z]; every conversion and
      every atomic addition writes its wrap-around out.
    - A [*uint64] is [option loc]: [None] is the nil pointer, and the cells
      live in a store [gmap loc Z] whose unwritten cells read as zero.
    - [http.Header] is a [gmap string string] ([Set] replaces the value).
    - A handler is a computation in the monad [M]: it threads the store, the
      response writer of the request, the lines given to [log.Printf] and
      the increments of the counter vector [pC]; it either returns or
      panics (nil dereference).
    - The duration observations on the summary vector [pH] and the scratch
      buffer pool [blackHolePool] carry wall-clock time and allocator state
      only; they are left out. *)

From Stdlib Require Import ZArith Lia String Ascii List DecimalString.
From Stdlib.Strings Require Import Byte.
From stdpp Require Import gmap strings list.
From Equations Require Import Equations.

Local Open Scope Z_scope.

(** ** Constants *)

Definition smallContentLength : Z := 1.
Definition largeContentLength : Z := 8 * 1024 * 1024 * 1024.
Definition chunkSize : Z := 64 * 1024.

(** [buffed]: the shared filler block, [chunkSize] bytes ['x'], built by
    [init]. *)
Definition buffed : list byte := replicate (Z.to_nat chunkSize) "x"%byte.

(** ** Machine integers *)

Definition uint64 (z : Z) : Z := z mod 2 ^ 64.
Definition int64 (z : Z) : Z := (z + 2 ^ 63) mod 2 ^ 64 - 2 ^ 63.

(** [len] of a slice, as an integer. *)
Definition len {A} (l : list A) : Z := Z.of_nat (length l).

(** [buffed[:n]]. *)
Definition slice_to {A} (l : list A) (n : Z) : list A := take (Z.to_nat n) l.

(** [%d] of [fmt.Sprintf] and [strconv.FormatInt(_, 10)]. *)
Definition FormatInt (z : Z) : string := NilZero.string_of_int (Z.to_int z).

(** ** Errors

    The error values the handlers can meet: the [io.EOF] sentinel (compared
    by identity), a [syscall.Errno], an [errors.New] text, and an error
    wrapping another one ([*net.OpError], [*os.SyscallError],
    [fmt.Errorf] with [%w]) with a text of its own. *)

Inductive error : Type :=
| io_EOF
| Errno (e : Z)
| errorString (s : string)
| wrapError (msg : string) (inner : error).

(** The values the platform's [syscall] package provides. *)
Class Syscall := {
  EPIPE : Z;
  ECONNRESET : Z;
  errnoText : Z -> string
}.

Section Errors.
Context `{Syscall}.

(** [err.Error()]. *)
Definition Error (err : error) : string :=
  match err with
  | io_EOF => "EOF"
  | Errno e => errnoText e
  | errorString s => s
  | wrapError msg _ => msg
  end.

(** [errors.Is(err, target)] for a [syscall.Errno] target: some error on the
    [Unwrap] chain is that errno. *)
Fixpoint errors_Is (err : error) (target : Z) : bool :=
  match err with
  | io_EOF => false
  | Errno e => Z.eqb e target
  | errorString _ => false
  | wrapError _ inner => errors_Is inner target
  end.

(** [ignorableError]; [None] is the nil error. *)
Definition ignorableError (err : option error) : bool :=
  match err with
  | None => true
  | Some e =>
    if errors_Is e EPIPE then true
    else if errors_Is e ECONNRESET then true
    else if String.eqb (Error e) "client disconnected" then true
    else false
  end.

End Errors.

(** ** The state a handler runs in *)

Definition loc := positive.

(** The response writer of one request: the header map, the status (set by
    the first [WriteHeader], or by the first [Write] when none came before),
    the buffers passed to [Write] in call order, and the transport's answer
    to each coming [Write] ([None]: accepted; past the end of the list every
    write is accepted). *)
Record ResponseWriter := {
  Header : gmap string string;
  status : option Z;
  writes : list (list byte);
  transport : list (option error)
}.

Record State := {
  mem : gmap loc Z;
  w : ResponseWriter;
  logs : list string;
  pC : list (string * string * string * Z)
}.

Inductive Outcome (A : Type) : Type :=
| Returned (a : A) (s : State)
| Panicked (s : State).
Arguments Returned {A} a s.
Arguments Panicked {A} s.

Definition M (A : Type) : Type := State -> Outcome A.

#[global] Instance M_ret : MRet M := fun A a s => Returned a s.
#[global] Instance M_bind : MBind M := fun A B f m s =>
  match m s with
  | Returned a s' => f a s'
  | Panicked s' => Panicked s'
  end.

Definition set_w (f : ResponseWriter -> ResponseWriter) (s : State) : State :=
  {| mem := mem s; w := f (w s); logs := logs s; pC := pC s |}.

(** [atomic.LoadUint64] on a cell of the store. *)
Definition load (m : gmap loc Z) (l : loc) : Z := default 0 (m !! l).

(** [atomic.AddUint64(p, delta)]: panics on the nil pointer. *)
Definition atomic_AddUint64 (p : option loc) (delta : Z) : M unit := fun s =>
  match p with
  | None => Panicked s
  | Some l =>
    Returned tt {| mem := <[l := uint64 (load (mem s) l + delta)]> (mem s);
                   w := w s; logs := logs s; pC := pC s |}
  end.

(** [log.Printf]: one line. *)
Definition log_Printf (line : string) : M unit := fun s =>
  Returned tt {| mem := mem s; w := w s; logs := logs s ++ [line]; pC := pC s |}.

(** [pC.WithLabelValues(f, v, t).Add(d)] and [.Inc()]. *)
Definition pC_Add (f v t : string) (d : Z) : M unit := fun s =>
  Returned tt {| mem := mem s; w := w s; logs := logs s;
                 pC := pC s ++ [(f, v, t, d)] |}.
Definition pC_Inc (f v t : string) : M unit := pC_Add f v t 1.

(** [w.Header().Set(k, v)]. *)
Definition Header_Set (k v : string) : M unit := fun s =>
  Returned tt (set_w (fun rw =>
    {| Header := <[k := v]> (Header rw); status := status rw;
       writes := writes rw; transport := transport rw |}) s).

(** [w.WriteHeader(code)]: only the first status counts. *)
Definition WriteHeader (code : Z) : M unit := fun s =>
  Returned tt (set_w (fun rw =>
    {| Header := Header rw;
       status := match status rw with Some c => Some c | None => Some code end;
       writes := writes rw; transport := transport rw |}) s).

(** [w.Write(p)]: hands [p] to the transport and returns its answer. *)
Definition Write (p : list byte) : M (option error) := fun s =>
  let rw := w s in
  Returned (match transport rw with [] => None | r :: _ => r end)
    (set_w (fun _ =>
      {| Header := Header rw;
         status := match status rw with Some c => Some c | None => Some 200 end;
         writes := writes rw ++ [p];
         transport := tail (transport rw) |}) s).

(** When a handler returns without having sent a status, [net/http] sends
    200 for it. *)
Definition finishRequest : M unit := WriteHeader 200.

(** ** Handlers *)

Record handlers := {
  EnableCORS : bool;
  BytesServed : option loc;
  BytesReceived : option loc
}.

Definition setCors : M unit :=
  Header_Set "Access-Control-Allow-Origin" "*";;
  Header_Set "Access-Control-Allow-Headers" "*".

(** The loop of [chunkedBodyWriter], on the remaining length [n]. *)
Equations? chunkedLoop (h : handlers) (n : Z) : M (option error)
  by wf (Z.to_nat n) lt :=
chunkedLoop h n with decide (n > 0) => {
  | right _ := mret None
  | left _ with decide (n >= chunkSize) => {
    | left _ :=
        atomic_AddUint64 (BytesServed h) (uint64 chunkSize);;
        pC_Add "chunkedBodyWriter" "chunkSize" "count" chunkSize;;
        err ← Write buffed;
        match err with
        | Some e =>
            pC_Inc "chunkedBodyWriter" "chunkedWrite" "error";;
            mret (Some e)
        | None => chunkedLoop h (n - chunkSize)
        end
    | right _ :=
        atomic_AddUint64 (BytesServed h) (uint64 n);;
        pC_Add "chunkedBodyWriter" "n" "count" n;;
        err ← Write (slice_to buffed n);
        match err with
        | Some e =>
            pC_Inc "chunkedBodyWriter" "Write" "error";;
            mret (Some e)
        | None => mret None
        end } }.
Proof. unfold chunkSize in *. lia. Qed.

Definition chunkedBodyWriter (h : handlers) (contentLength : Z)
  : M (option error) :=
  pC_Inc "chunkedBodyWriter" "start" "count";;
  WriteHeader 200;;
  chunkedLoop h contentLength.


(** ** Requests

    The body [net/http] hands to a handler is either [http.NoBody] (a
    request without a body on HTTP/1), the one body that is also an
    [io.WriterTo], or a reader that offers [Read] and [Close] only and
    whose reads end: [reads] are the blocks delivered by the [Read] calls
    that return a nil error, then one last call delivers [lastRead]
    together with the non-nil [lastErr] ([io.EOF] at the end of the
    stream). The [Read] of [http.NoBody] returns [0, io.EOF] at once. *)
Inductive Reader :=
| http_NoBody
| streamed (reads : list (list byte)) (lastRead : list byte) (lastErr : error).

Definition reads (r : Reader) : list (list byte) :=
  match r with
  | http_NoBody => []
  | streamed rs _ _ => rs
  end.

Definition lastRead (r : Reader) : list byte :=
  match r with
  | http_NoBody => []
  | streamed _ last _ => last
  end.

Definition lastErr (r : Reader) : error :=
  match r with
  | http_NoBody => io_EOF
  | streamed _ _ err => err
  end.

Record Request := {
  Method : string;
  Body : Reader
}.

Definition MethodGet : string := "GET".
Definition MethodHead : string := "HEAD".
Definition StatusOK : Z := 200.
Definition StatusBadRequest : Z := 400.
Definition StatusMethodNotAllowed : Z := 405.

(** [%s] of an error value. *)
Definition fmt_s `{Syscall} (err : option error) : string :=
  match err with
  | Some e => Error e
  | None => "%!s(<nil>)"
  end.

Section Handlers.
Context `{Syscall}.

Definition smallHandler (h : handlers) (r : Request) : M unit :=
  pC_Inc "smallHandler" (Method r) "count";;
  if decide (Method r ≠ MethodGet ∧ Method r ≠ MethodHead) then
    pC_Inc "smallHandler" "StatusMethodNotAllowed" "count";;
    WriteHeader StatusMethodNotAllowed
  else
    Header_Set "Content-Length" (FormatInt smallContentLength);;
    Header_Set "Content-Type" "application/octet-stream";;
    (if EnableCORS h then setCors else mret tt);;
    err ← chunkedBodyWriter h smallContentLength;
    if negb (ignorableError err) then
      pC_Inc "smallHandler" "chunkedBodyWriter" "error";;
      log_Printf ("Error writing content of length "
                  +:+ FormatInt smallContentLength +:+ ": " +:+ fmt_s err)
    else mret tt.

Definition largeHandler (h : handlers) (r : Request) : M unit :=
  pC_Inc "largeHandler" (Method r) "count";;
  if decide (Method r ≠ MethodGet ∧ Method r ≠ MethodHead) then
    pC_Inc "largeHandler" "StatusMethodNotAllowed" "count";;
    WriteHeader StatusMethodNotAllowed
  else
    Header_Set "Content-Length" (FormatInt largeContentLength);;
    Header_Set "Content-Type" "application/octet-stream";;
    (if EnableCORS h then setCors else mret tt);;
    if decide (Method r ≠ MethodGet) then mret tt
    else
      err ← chunkedBodyWriter h largeContentLength;
      if negb (ignorableError err) then
        pC_Inc "smallHandler" "chunkedBodyWriter" "error";;
        log_Printf ("Error writing content of length "
                    +:+ FormatInt largeContentLength +:+ ": " +:+ fmt_s err)
      else mret tt.

Definition setNoPublicCache : M unit :=
  Header_Set "Proxy-Cache-Control" "max-age=604800, public";;
  Header_Set "Cache-Control" "no-store, must-revalidate, private, max-age=0".

Record countingDiscard := { byteCounter : option loc }.

(** The loop of [countingDiscard.ReadFrom]: [n] is the running total. *)
Fixpoint ReadFrom_loop (cb : countingDiscard) (rs : list (list byte))
    (last : list byte) (err : error) (n : Z) : M (Z * option error) :=
  match rs with
  | block :: rs' =>
      let readSize := len block in
      let n := int64 (n + int64 readSize) in
      atomic_AddUint64 (byteCounter cb) (uint64 readSize);;
      ReadFrom_loop cb rs' last err n
  | [] =>
      let readSize := len last in
      let n := int64 (n + int64 readSize) in
      atomic_AddUint64 (byteCounter cb) (uint64 readSize);;
      match err with
      | io_EOF => mret (n, None)
      | _ => mret (n, Some err)
      end
  end.

Definition ReadFrom (cb : countingDiscard) (r : Reader)
  : M (Z * option error) :=
  ReadFrom_loop cb (reads r) (lastRead r) (lastErr r) 0.

(** [countingDiscard.Write] and [WriteString]: the length and nil; nothing
    is counted. *)
Definition countingDiscard_Write (cb : countingDiscard) (p : list byte)
  : M (Z * option error) :=
  let x := len p in
  mret (x, None).

Definition countingDiscard_WriteString (cb : countingDiscard) (s : string)
  : M (Z * option error) :=
  let x := Z.of_nat (String.length s) in
  mret (x, None).

(** [io.Copy(dst, src)] for this destination. A source that is an
    [io.WriterTo] is asked first and copies itself: among the bodies that
    is [http.NoBody], whose [WriteTo] returns [0, nil] without a call of
    [dst.Write]. Otherwise, [countingDiscard] being an [io.ReaderFrom],
    the copy is [dst.ReadFrom(src)]. *)
Definition io_Copy (dst : countingDiscard) (src : Reader)
  : M (Z * option error) :=
  match src with
  | http_NoBody => mret (0, None)
  | streamed _ _ _ => ReadFrom dst src
  end.

(** [http.Error(w, msg, code)]. *)
Definition http_Error (msg : string) (code : Z) : M unit :=
  Header_Set "Content-Type" "text/plain; charset=utf-8";;
  Header_Set "X-Content-Type-Options" "nosniff";;
  WriteHeader code;;
  _ ← Write (list_byte_of_string (msg +:+ String "010"%char EmptyString));
  mret tt.

Definition slurpHandler (h : handlers) (r : Request) : M unit :=
  pC_Inc "slurpHandler" "start" "count";;
  Header_Set "Content-Type" "application/octet-stream";;
  setNoPublicCache;;
  (if EnableCORS h then setCors else mret tt);;
  '(_, err) ← io_Copy {| byteCounter := BytesReceived h |} (Body r);
  match err with
  | Some e =>
      pC_Inc "slurpHandler" "Copy" "error";;
      http_Error (Error e) StatusBadRequest
  | None => WriteHeader StatusOK
  end.

(** [BulkHandlers] and [CountingBulkHandlers]: the path to handler maps. *)
Definition BulkHandlers (prefix : string) (cors : bool)
  : gmap string (Request -> M unit) :=
  let h := {| EnableCORS := cors; BytesServed := None;
              BytesReceived := None |} in
  <[prefix +:+ "/small" := smallHandler h]>
  (<[prefix +:+ "/large" := largeHandler h]>
  (<[prefix +:+ "/slurp" := slurpHandler h]> ∅)).

Definition CountingBulkHandlers (prefix : string) (cors : bool)
    (bytesServed bytesReceived : option loc)
  : gmap string (Request -> M unit) :=
  let h := {| EnableCORS := cors; BytesServed := bytesServed;
              BytesReceived := bytesReceived |} in
  <[prefix +:+ "/small" := smallHandler h]>
  (<[prefix +:+ "/large" := largeHandler h]>
  (<[prefix +:+ "/slurp" := slurpHandler h]> ∅)).

End Handlers.

(** [net/http] serving one request with the handler [hf]. *)
Definition serve (hf : Request -> M unit) (r : Request) : M unit :=
  hf r;; finishRequest.

(** ** Reference notions used by the statements *)

(** The advance of a [uint64] counter from [old] to [new]: the difference
    in [uint64] arithmetic, as [PrintStats] computes it. *)
Definition advance (old new : Z) : Z := uint64 (new - old).

(** Total number of bytes in a sequence of buffers. *)
Definition total (ws : list (list byte)) : Z := len (concat ws).

(** The writes a length [n] splits into: the full chunks, then the
    remainder when there is one. *)
Definition chunks (n : Z) : list (list byte) :=
  replicate (Z.to_nat (n / chunkSize)) buffed ++
  (if decide (n mod chunkSize = 0) then []
   else [slice_to buffed (n mod chunkSize)]).

(** What a transport lets through of a sequence of buffers handed to it
    one [Write] at a time, stopping at the first failed [Write]: the
    buffers handed over (the failed one included) and the failure. *)
Fixpoint performed (tr : list (option error)) (cs : list (list byte))
  : list (list byte) * option error :=
  match cs with
  | [] => ([], None)
  | c :: cs' =>
    match tr with
    | Some e :: _ => ([c], Some e)
    | None :: tr' => let '(ws, r) := performed tr' cs' in (c :: ws, r)
    | [] => let '(ws, r) := performed [] cs' in (c :: ws, r)
    end
  end.

(** The response writer a request starts with, over a transport [tr]. *)
Definition newResponse (tr : list (option error)) : ResponseWriter :=
  {| Header := ∅; status := None; writes := []; transport := tr |}.

(** The state a run ends in. *)
Definition final {A} (o : Outcome A) : State :=
  match o with
  | Returned _ s => s
  | Panicked s => s
  end.

(** The bytes of a request body, whatever the reads that deliver them. *)
Definition bodyBytes (b : Reader) : list byte :=
  concat (reads b) ++ lastRead b.

(** The outcome [ReadFrom] reports for the last error of the reader. *)
Definition readResult (err : error) : option error :=
  match err with
  | io_EOF => None
  | _ => Some err
  end.

(** [unwraps err e]: [e] is on the [Unwrap] chain of [err]. *)
Inductive unwraps : error -> error -> Prop :=
| unwraps_here (e : error) : unwraps e e
| unwraps_inner (msg : string) (inner e : error) :
    unwraps inner e -> unwraps (wrapError msg inner) e.

Section Logging.
Context `{Syscall}.

(** The headers both download handlers set before the body. *)
Definition downloadHeader (cors : bool) (N : Z) (hd : gmap string string)
  : gmap string string :=
  let hd := <["Content-Type" := "application/octet-stream"]>
              (<["Content-Length" := FormatInt N]> hd) in
  if cors then
    <["Access-Control-Allow-Headers" := "*"]>
      (<["Access-Control-Allow-Origin" := "*"]> hd)
  else hd.

(** The line a download handler logs for the outcome [err] of its body
    writer. *)
Definition downloadLog (N : Z) (err : option error) : list string :=
  if ignorableError err then []
  else ["Error writing content of length " +:+ FormatInt N +:+ ": "
        +:+ fmt_s err].

End Logging.

(** A sample platform (Linux: EPIPE is 32, ECONNRESET is 104). *)
Definition linux : Syscall :=
  {| EPIPE := 32; ECONNRESET := 104;
     errnoText := fun e =>
       if Z.eqb e 32 then "broken pipe"
       else if Z.eqb e 104 then "connection reset by peer"
       else "errno " +:+ FormatInt e |}.

(** Sample inputs: handlers with both counters, a state with a fresh
    response over the transport [tr] and the counters at zero, and
    [noBody], an empty request body that is delivered by reading (its first
    [Read] returns [io.EOF]), as distinct from [http_NoBody]. *)
Definition hW : handlers :=
  {| EnableCORS := true; BytesServed := Some 1%positive;
     BytesReceived := Some 2%positive |}.

Definition sW (tr : list (option error)) : State :=
  {| mem := ∅; w := newResponse tr; logs := []; pC := [] |}.

Definition noBody : Reader := streamed [] [] io_EOF.

(** [line] mentions [name]: [name] occurs in [line]. *)
Fixpoint mentions (line name : string) : bool :=
  String.prefix name line ||
  match line with
  | EmptyString => false
  | String _ rest => mentions rest name
  end.

(** ** The discovery document *)

Module Discovery.

Record configURLs := {
  SmallDownloadURL : string;
  LargeDownloadURL : string;
  UploadURL : string;
  SmallHTTPSDownloadURL : string;
  LargeHTTPSDownloadURL : string;
  HTTPSUploadURL : string
}.

Record configResp := {
  Version : Z;
  Urls : configURLs
}.

(** [sync.Once]: not yet used, running its function, or done. *)
Inductive Once := OnceIdle | OnceRunning | OnceDone.

Record Server := {
  PublicPort : Z;
  PublicHostPort : string;
  ContextPath : string;
  Scheme : string;
  EnableCORS : bool;
  EnableH3AltSvc : bool;
  BytesServed : Z;
  BytesReceived : Z;
  generatedConfig : list byte;
  once : Once
}.

Definition generateSmallDownloadURL (m : Server) : string :=
  Scheme m +:+ "://" +:+ PublicHostPort m +:+ ContextPath m +:+ "/small".

Definition generateLargeDownloadURL (m : Server) : string :=
  Scheme m +:+ "://" +:+ PublicHostPort m +:+ ContextPath m +:+ "/large".

Definition generateUploadURL (m : Server) : string :=
  Scheme m +:+ "://" +:+ PublicHostPort m +:+ ContextPath m +:+ "/slurp".

(** The value [generateConfig] hands to the marshaller. *)
Definition configDocument (m : Server) : configResp :=
  {| Version := 1;
     Urls := {| SmallDownloadURL := generateSmallDownloadURL m;
                LargeDownloadURL := generateLargeDownloadURL m;
                UploadURL := generateUploadURL m;
                SmallHTTPSDownloadURL := generateSmallDownloadURL m;
                LargeHTTPSDownloadURL := generateLargeDownloadURL m;
                HTTPSUploadURL := generateUploadURL m |} |}.

Definition set_generatedConfig (b : list byte) (m : Server) : Server :=
  {| PublicPort := PublicPort m; PublicHostPort := PublicHostPort m;
     ContextPath := ContextPath m; Scheme := Scheme m;
     EnableCORS := EnableCORS m; EnableH3AltSvc := EnableH3AltSvc m;
     BytesServed := BytesServed m; BytesReceived := BytesReceived m;
     generatedConfig := b; once := once m |}.

Definition set_once (o : Once) (m : Server) : Server :=
  {| PublicPort := PublicPort m; PublicHostPort := PublicHostPort m;
     ContextPath := ContextPath m; Scheme := Scheme m;
     EnableCORS := EnableCORS m; EnableH3AltSvc := EnableH3AltSvc m;
     BytesServed := BytesServed m; BytesReceived := BytesReceived m;
     generatedConfig := generatedConfig m; once := o |}.

Section Handler.

(** [json.MarshalIndent(resp, "", "    ")] of [encoding/json]. It cannot
    fail on a struct of strings and one integer, so it is taken as a total
    function and the [log.Fatal] branch of [generateConfig] is dead. *)
Variable json_MarshalIndent : configResp -> list byte.

Context `{Syscall}.

Definition generateConfig (m : Server) : Server :=
  let b := json_MarshalIndent (configDocument m) in
  set_generatedConfig b m.

(** [m.once.Do(f)] when no other call is inside it. *)
Definition once_Do (f : Server -> Server) (m : Server) : Server :=
  match once m with
  | OnceDone => m
  | _ => set_once OnceDone (f m)
  end.

(** [ConfigHandler] after [m.once.Do]: the headers and the write. *)
Definition respondConfig (m : Server) : M unit :=
  Header_Set "Content-Type" "application/json";;
  (if EnableH3AltSvc m then
     Header_Set "Alt-Svc"
       ("h3=" +:+ String "034"%char (":" +:+ FormatInt (PublicPort m)
              +:+ String "034"%char EmptyString))
   else mret tt);;
  (if EnableCORS m then setCors else mret tt);;
  err ← Write (generatedConfig m);
  match err with
  | Some e => log_Printf ("could not write response: " +:+ Error e)
  | None => mret tt
  end.

(** [ConfigHandler]; it returns the server as the request leaves it. *)
Definition ConfigHandler (m : Server) (r : Request) : M Server :=
  if decide (Method r ≠ MethodGet) then
    WriteHeader StatusMethodNotAllowed;; mret m
  else
    let m := once_Do generateConfig m in
    respondConfig m;; mret m.


(** *** Requests served concurrently

    Each request runs [ConfigHandler] in a goroutine of its own over the one
    [Server]. A goroutine is at one of five points: before the method test,
    at the call of [m.once.Do], inside the function [once.Do] runs (it is
    the one building the document), past [once.Do] and before the headers
    and the write, or finished. [sync.Once] lets one caller run the
    function; a caller arriving meanwhile waits until it has returned. *)

Inductive pc := AtMethod | AtOnce | InBuild | AtRespond | Finished.

Record thread := {
  req : Request;
  at_pc : pc;
  st : State
}.

Definition set_pc (p : pc) (th : thread) : thread :=
  {| req := req th; at_pc := p; st := st th |}.

(** The server, the goroutines, and the number of times [generateConfig]
    has run. *)
Record system := {
  srv : Server;
  threads : list thread;
  builds : nat
}.

(** What can happen next: a request arrives (over a transport [tr]), the
    goroutine [t] takes its next step, or the embedding program assigns the
    exported configuration fields of the server. *)
Inductive event :=
| Arrive (r : Request) (tr : list (option error))
| Step (t : nat)
| Reconfigure (c : Server).

Definition reconfigure (c m : Server) : Server :=
  {| PublicPort := PublicPort c; PublicHostPort := PublicHostPort c;
     ContextPath := ContextPath c; Scheme := Scheme c;
     EnableCORS := EnableCORS c; EnableH3AltSvc := EnableH3AltSvc c;
     BytesServed := BytesServed m; BytesReceived := BytesReceived m;
     generatedConfig := generatedConfig m; once := once m |}.

(** One step of a goroutine: the server and goroutine after it, and
    whether the step ran [generateConfig]. *)
Definition step_thread (m : Server) (th : thread) : Server * thread * nat :=
  match at_pc th with
  | AtMethod =>
      if decide (Method (req th) ≠ MethodGet) then
        (m, {| req := req th; at_pc := Finished;
               st := final (WriteHeader StatusMethodNotAllowed (st th)) |},
         0%nat)
      else (m, set_pc AtOnce th, 0%nat)
  | AtOnce =>
      match once m with
      | OnceIdle => (set_once OnceRunning m, set_pc InBuild th, 0%nat)
      | OnceRunning => (m, th, 0%nat)
      | OnceDone => (m, set_pc AtRespond th, 0%nat)
      end
  | InBuild => (set_once OnceDone (generateConfig m), set_pc AtRespond th, 1%nat)
  | AtRespond =>
      (m, {| req := req th; at_pc := Finished;
             st := final (respondConfig m (st th)) |}, 0%nat)
  | Finished => (m, th, 0%nat)
  end.

Definition step (sys : system) (ev : event) : system :=
  match ev with
  | Arrive r tr =>
      {| srv := srv sys;
         threads := threads sys ++
           [{| req := r; at_pc := AtMethod;
               st := {| mem := ∅; w := newResponse tr; logs := [];
                        pC := [] |} |}];
         builds := builds sys |}
  | Step t =>
      match threads sys !! t with
      | Some th =>
          let '(m', th', b) := step_thread (srv sys) th in
          {| srv := m'; threads := <[t := th']> (threads sys);
             builds := (builds sys + b)%nat |}
      | None => sys
      end
  | Reconfigure c =>
      {| srv := reconfigure c (srv sys); threads := threads sys;
         builds := builds sys |}
  end.

Definition run (sys : system) (evs : list event) : system :=
  foldl step sys evs.

(** A server that has served nothing yet. *)
Definition boot (m : Server) : system :=
  {| srv := m; threads := []; builds := 0 |}.

(** What each goroutine can rely on at its point of [ConfigHandler]. *)
Definition thread_ok (m : Server) (th : thread) : Prop :=
  match at_pc th with
  | AtMethod | AtOnce => writes (w (st th)) = []
  | InBuild => writes (w (st th)) = [] ∧ once m = OnceRunning
  | AtRespond => writes (w (st th)) = [] ∧ once m = OnceDone
  | Finished =>
      Method (req th) = MethodGet ->
      once m = OnceDone ∧ writes (w (st th)) = [generatedConfig m]
  end.

(** The invariant of the machine: every goroutine is [thread_ok], the
    build count follows the state of [once], and at most one goroutine is
    building. *)
Definition inv (sys : system) : Prop :=
  (∀ i th, threads sys !! i = Some th -> thread_ok (srv sys) th)
  ∧ builds sys = match once (srv sys) with OnceDone => 1%nat | _ => 0%nat end
  ∧ (∀ i j thi thj,
       threads sys !! i = Some thi -> threads sys !! j = Some thj ->
       at_pc thi = InBuild -> at_pc thj = InBuild -> i = j).

End Handler.

(** Sample inputs: the configuration of the spec's scenario, and a stand-in
    for the marshaller that keeps the three plain URLs, one per line. *)
Definition mW : Server :=
  {| PublicPort := 4043; PublicHostPort := "nq.example.com:4043";
     ContextPath := ""; Scheme := "https";
     EnableCORS := false; EnableH3AltSvc := true;
     BytesServed := 0; BytesReceived := 0;
     generatedConfig := []; once := OnceIdle |}.

Definition linesW (d : configResp) : list byte :=
  list_byte_of_string
    (SmallDownloadURL (Urls d) +:+ String "010"%char
       (LargeDownloadURL (Urls d) +:+ String "010"%char
          (UploadURL (Urls d)))).

End Discovery.

(** ** Notions used by the further properties *)

(** The bytes the counter vector [pC] was told of: the sum of the amounts
    added under [("chunkedBodyWriter", "chunkSize", "count")] and
    [("chunkedBodyWriter", "n", "count")]. *)
Definition byteCount (ev : string * string * string * Z) : Z :=
  let '(f, v, t, d) := ev in
  if String.eqb f "chunkedBodyWriter"
     && (String.eqb v "chunkSize" || String.eqb v "n")
     && String.eqb t "count"
  then d else 0.

Definition countedBytes (evs : list (string * string * string * Z)) : Z :=
  foldr Z.add 0 (map byteCount evs).

(** The headers [slurpHandler] sets before it reads the body. *)
Definition slurpHeader (cors : bool) (hd : gmap string string)
  : gmap string string :=
  let hd := <["Cache-Control" :=
                "no-store, must-revalidate, private, max-age=0"]>
              (<["Proxy-Cache-Control" := "max-age=604800, public"]>
                 (<["Content-Type" := "application/octet-stream"]> hd)) in
  if cors then
    <["Access-Control-Allow-Headers" := "*"]>
      (<["Access-Control-Allow-Origin" := "*"]> hd)
  else hd.

(** What every buffer handed to [Write] looks like. *)
Definition fillerBlock (p : list byte) : Prop :=
  0 < len p <= chunkSize ∧ Forall (fun b => b = "x"%byte) p.

(** The text of the [Alt-Svc] header. *)
Definition altSvc (port : Z) : string :=
  "h3=" +:+ String "034"%char (":" +:+ FormatInt port
         +:+ String "034"%char EmptyString).


(** ** The throughput reporter

    [PrintStats] never returns: it samples the two counters of the server
    once a second. [samples] are the states of the server at the first
    wake-ups, so that [PrintStats samples] is the loop up to there; it
    returns the two last values the loop then holds. The rate printed for an
    advance [delta] is floating-point arithmetic and formatting,
    [fmt.Sprintf("%0.2f", float64(delta) / dur.Seconds() /
    float64(1024*1024) * 8)], taken as the parameter [fmt_Mbps]. *)
Section Reporter.
Variable fmt_Mbps : Z -> string.

Fixpoint PrintStats_loop (samples : list Discovery.Server)
    (lastBytesServed lastBytesReceived : Z) : M (Z * Z) :=
  match samples with
  | [] => mret (lastBytesServed, lastBytesReceived)
  | m :: samples' =>
      let msg := EmptyString in
      let x := Discovery.BytesServed m in
      let y := Discovery.BytesReceived m in
      let '(msg, lastBytesServed) :=
        if decide (x > lastBytesServed) then
          let delta := uint64 (x - lastBytesServed) in
          (msg +:+ "Sent: " +:+ fmt_Mbps delta +:+ "Mbps", x)
        else (msg, lastBytesServed) in
      let '(msg, lastBytesReceived) :=
        if decide (y > lastBytesReceived) then
          let delta := uint64 (y - lastBytesReceived) in
          let msg := if decide (0 < String.length msg)%nat
                     then msg +:+ " " else msg in
          (msg +:+ "Received: " +:+ fmt_Mbps delta +:+ "Mbps", y)
        else (msg, lastBytesReceived) in
      (if decide (0 < String.length msg)%nat then log_Printf msg
       else mret tt);;
      PrintStats_loop samples' lastBytesServed lastBytesReceived
  end.

Definition PrintStats (samples : list Discovery.Server) : M (Z * Z) :=
  pC_Inc "PrintStats" "start" "count";;
  PrintStats_loop samples 0 0.

End Reporter.

(** The largest of [a] and the values [xs]. *)
Definition highest (a : Z) (xs : list Z) : Z := foldl Z.max a xs.

(** ** Downloads served concurrently

    One turn of the loop of [chunkedBodyWriter] on the remaining length
    [n]: the loop goes on with a new remaining length, or the writer
    returns. *)
Inductive turn :=
| GoOn (n : Z)
| Return (err : option error).

Definition chunkedTurn (h : handlers) (n : Z) : M turn :=
  if decide (n > 0) then
    if decide (n >= chunkSize) then
      atomic_AddUint64 (BytesServed h) (uint64 chunkSize);;
      pC_Add "chunkedBodyWriter" "chunkSize" "count" chunkSize;;
      err ← Write buffed;
      match err with
      | Some e =>
          pC_Inc "chunkedBodyWriter" "chunkedWrite" "error";;
          mret (Return (Some e))
      | None => mret (GoOn (n - chunkSize))
      end
    else
      atomic_AddUint64 (BytesServed h) (uint64 n);;
      pC_Add "chunkedBodyWriter" "n" "count" n;;
      err ← Write (slice_to buffed n);
      match err with
      | Some e =>
          pC_Inc "chunkedBodyWriter" "Write" "error";;
          mret (Return (Some e))
      | None => mret (Return None)
      end
  else mret (Return None).

(** A download in its body-writer loop: the length it was asked for, where
    it is, and its own response writer, log lines and metric events (the
    [mem] of [own] is not used: the counters are in the shared store). *)
Inductive progress :=
| Writing (n : Z)
| Ended (err : option error)
| Crashed.

Record download := {
  asked : Z;
  at_turn : progress;
  own : State
}.

Record pool := {
  shared : gmap loc Z;
  downloads : list download
}.

Definition newDownload (req : Z * list (option error)) : download :=
  {| asked := req.1; at_turn := Writing req.1;
     own := {| mem := ∅; w := newResponse req.2; logs := []; pC := [] |} |}.

(** The goroutine of download [t] runs one turn of its loop on the shared
    store. Each turn touches the shared store by one [atomic.AddUint64]
    only, so turns are the grain at which goroutines interleave. *)
Definition pool_step (h : handlers) (p : pool) (t : nat) : pool :=
  match downloads p !! t with
  | Some d =>
    match at_turn d with
    | Writing n =>
      let s := {| mem := shared p; w := w (own d); logs := logs (own d);
                  pC := pC (own d) |} in
      match chunkedTurn h n s with
      | Returned (GoOn n') s' =>
          {| shared := mem s';
             downloads := <[t := {| asked := asked d; at_turn := Writing n';
                                    own := s' |}]> (downloads p) |}
      | Returned (Return err) s' =>
          {| shared := mem s';
             downloads := <[t := {| asked := asked d; at_turn := Ended err;
                                    own := s' |}]> (downloads p) |}
      | Panicked s' =>
          {| shared := mem s';
             downloads := <[t := {| asked := asked d; at_turn := Crashed;
                                    own := s' |}]> (downloads p) |}
      end
    | _ => p
    end
  | None => p
  end.

Definition pool_run (h : handlers) (p : pool) (schedule : list nat) : pool :=
  foldl (pool_step h) p schedule.

(** The bytes all downloads of a pool have passed to [Write]. *)
Definition written (ds : list download) : Z :=
  foldr (fun d acc => total (writes (w (own d))) + acc) 0 ds.

(** The invariant of the pool, download by download: what is written and
    what remains make up the size asked for. *)
Definition download_ok (d : download) : Prop :=
  match at_turn d with
  | Writing n => 0 <= n ∧ total (writes (w (own d))) + n = asked d
  | Ended None => total (writes (w (own d))) = asked d
  | Ended (Some _) => total (writes (w (own d))) <= asked d
  | Crashed => False
  end.

(** * Properties *)

Lemma chunkSize_val : chunkSize = 65536.
Proof. reflexivity. Qed.

Lemma len_buffed : len buffed = chunkSize.
Proof.
  unfold len, buffed. rewrite length_replicate.
  rewrite Z2Nat.id; [reflexivity | rewrite chunkSize_val; lia].
Qed.

(** From here on the block and the constants are kept folded. *)
#[local] Opaque buffed.
Arguments chunkSize : simpl never.
Arguments uint64 : simpl never.
Arguments int64 : simpl never.

Lemma len_slice_to (n : Z) :
  0 <= n <= chunkSize -> len (slice_to buffed n) = n.
Proof.
  intros Hn. unfold len, slice_to. rewrite length_take.
  pose proof len_buffed as Hb. unfold len in Hb. lia.
Qed.

Lemma total_nil : total [] = 0.
Proof. reflexivity. Qed.

Lemma total_cons c ws : total (c :: ws) = len c + total ws.
Proof. unfold total, len. simpl. rewrite length_app. lia. Qed.

Lemma total_app ws1 ws2 : total (ws1 ++ ws2) = total ws1 + total ws2.
Proof.
  induction ws1 as [|c ws1 IH]; simpl.
  - rewrite total_nil. lia.
  - rewrite !total_cons, IH. lia.
Qed.

Lemma total_nonneg ws : 0 <= total ws.
Proof. unfold total, len. lia. Qed.

Lemma total_replicate (k : nat) c : total (replicate k c) = Z.of_nat k * len c.
Proof.
  induction k as [|k IH].
  - reflexivity.
  - change (replicate (S k) c) with (c :: replicate k c).
    rewrite total_cons, IH. lia.
Qed.

(** The three shapes of [chunks]. *)
Lemma chunks_zero : chunks 0 = [].
Proof. reflexivity. Qed.

Lemma chunks_small (n : Z) :
  0 < n < chunkSize -> chunks n = [slice_to buffed n].
Proof.
  intros Hn. unfold chunks.
  rewrite Z.div_small, Z.mod_small by lia.
  destruct (decide (n = 0)); [lia | reflexivity].
Qed.

Lemma chunks_step (n : Z) :
  chunkSize <= n -> chunks n = buffed :: chunks (n - chunkSize).
Proof.
  intros Hn. unfold chunks.
  assert (Hc : 0 < chunkSize) by (rewrite chunkSize_val; lia).
  assert (Hq : n / chunkSize = (n - chunkSize) / chunkSize + 1).
  { replace n with ((n - chunkSize) + 1 * chunkSize) at 1 by lia.
    apply Z.div_add. lia. }
  assert (Hr : n mod chunkSize = (n - chunkSize) mod chunkSize).
  { replace n with ((n - chunkSize) + 1 * chunkSize) at 1 by lia.
    apply Z.mod_add. lia. }
  assert (0 <= (n - chunkSize) / chunkSize) by (apply Z.div_pos; lia).
  rewrite Hq, Hr, Z2Nat.inj_add, Nat.add_comm by lia.
  reflexivity.
Qed.

Lemma total_chunks (n : Z) : 0 <= n -> total (chunks n) = n.
Proof.
  intros Hn. unfold chunks.
  assert (Hc : 0 < chunkSize) by (rewrite chunkSize_val; lia).
  pose proof (Z.mod_pos_bound n chunkSize Hc) as Hm.
  pose proof (Z.div_mod n chunkSize ltac:(lia)) as Hd.
  assert (0 <= n / chunkSize) by (apply Z.div_pos; lia).
  rewrite total_app, total_replicate, len_buffed, Z2Nat.id by lia.
  destruct (decide (n mod chunkSize = 0)) as [H0|H0].
  - rewrite total_nil. lia.
  - rewrite total_cons, total_nil, len_slice_to by lia. lia.
Qed.

(** [performed] hands over a prefix of the buffers, all of them when no
    write fails. *)
Lemma performed_total tr cs :
  0 <= total (performed tr cs).1 <= total cs.
Proof.
  revert tr. induction cs as [|c cs IH]; intros tr; simpl.
  - rewrite total_nil. lia.
  - assert (0 <= len c) by (unfold len; lia).
    destruct tr as [|[e|] tr'].
    + specialize (IH []). destruct (performed [] cs) as [ws r]. simpl in *.
      rewrite !total_cons. lia.
    + simpl. rewrite !total_cons, total_nil. pose proof (total_nonneg cs). lia.
    + specialize (IH tr'). destruct (performed tr' cs) as [ws r]. simpl in *.
      rewrite !total_cons. lia.
Qed.

Lemma performed_success tr cs :
  (performed tr cs).2 = None -> (performed tr cs).1 = cs.
Proof.
  revert tr. induction cs as [|c cs IH]; intros tr; simpl; [reflexivity|].
  destruct tr as [|[e|] tr'].
  - specialize (IH []). destruct (performed [] cs) as [ws r]. simpl in *.
    intros Hr. rewrite IH; auto.
  - simpl. discriminate.
  - specialize (IH tr'). destruct (performed tr' cs) as [ws r]. simpl in *.
    intros Hr. rewrite IH; auto.
Qed.

Lemma performed_healthy tr cs :
  Forall (fun r => r = None) (take (length cs) tr) ->
  performed tr cs = (cs, None).
Proof.
  revert tr. induction cs as [|c cs IH]; intros tr Htr; simpl; [reflexivity|].
  destruct tr as [|[e|] tr'].
  - rewrite (IH []); [reflexivity|]. rewrite take_nil. constructor.
  - simpl in Htr. inversion Htr; discriminate.
  - simpl in Htr. inversion Htr; subst. rewrite (IH tr'); auto.
Qed.

(** Arithmetic of [advance]. *)
Lemma advance_refl (a : Z) : advance a a = 0.
Proof. unfold advance. rewrite Z.sub_diag. reflexivity. Qed.

Lemma advance_add (a d : Z) : advance a (uint64 (a + d)) = uint64 d.
Proof.
  unfold advance, uint64.
  rewrite Zminus_mod, Z.mod_mod, <- Zminus_mod by lia.
  f_equal. lia.
Qed.

Lemma advance_trans (a b c x y : Z) :
  advance a b = uint64 x -> advance b c = uint64 y ->
  advance a c = uint64 (x + y).
Proof.
  unfold advance, uint64. intros H1 H2.
  replace (c - a) with ((b - a) + (c - b)) by lia.
  rewrite Zplus_mod, H1, H2, <- Zplus_mod. reflexivity.
Qed.

Lemma uint64_small (z : Z) : 0 <= z < 2 ^ 64 -> uint64 z = z.
Proof. intros Hz. unfold uint64. apply Z.mod_small. lia. Qed.

(** The loop of [chunkedBodyWriter], one turn unfolded. *)
Lemma chunkedLoop_eq (h : handlers) (n : Z) :
  chunkedLoop h n =
  if decide (n > 0) then
    if decide (n >= chunkSize) then
      atomic_AddUint64 (BytesServed h) (uint64 chunkSize);;
      pC_Add "chunkedBodyWriter" "chunkSize" "count" chunkSize;;
      err ← Write buffed;
      match err with
      | Some e =>
          pC_Inc "chunkedBodyWriter" "chunkedWrite" "error";; mret (Some e)
      | None => chunkedLoop h (n - chunkSize)
      end
    else
      atomic_AddUint64 (BytesServed h) (uint64 n);;
      pC_Add "chunkedBodyWriter" "n" "count" n;;
      err ← Write (slice_to buffed n);
      match err with
      | Some e => pC_Inc "chunkedBodyWriter" "Write" "error";; mret (Some e)
      | None => mret None
      end
  else mret None.
Proof.
  rewrite chunkedLoop_equation_1.
  destruct (decide (n > 0)); simp chunkedLoop; [|reflexivity].
  destruct (decide (n >= chunkSize)); simp chunkedLoop; reflexivity.
Qed.

Ltac run_step :=
  unfold mbind, M_bind, mret, M_ret, atomic_AddUint64, pC_Inc, pC_Add, Write,
    WriteHeader, Header_Set, log_Printf, set_w; cbn.

Lemma load_insert_eq (m : gmap loc Z) (l : loc) (v : Z) :
  load (<[l := v]> m) l = v.
Proof. unfold load. rewrite lookup_insert_eq. reflexivity. Qed.

Lemma chunkedLoop_run (h : handlers) (l : loc) (n : Z) (s : State) :
  BytesServed h = Some l -> 0 <= n ->
  ∃ s', chunkedLoop h n s
          = Returned (performed (transport (w s)) (chunks n)).2 s'
    ∧ writes (w s') = writes (w s) ++ (performed (transport (w s)) (chunks n)).1
    ∧ advance (load (mem s) l) (load (mem s') l)
        = uint64 (total (performed (transport (w s)) (chunks n)).1)
    ∧ (∀ l', l' ≠ l -> mem s' !! l' = mem s !! l')
    ∧ logs s' = logs s
    ∧ Header (w s') = Header (w s)
    ∧ (∀ c, status (w s) = Some c -> status (w s') = Some c).
Proof.
  intros Hl Hn.
  remember (Z.to_nat (n / chunkSize)) as k eqn:Hk.
  revert n s Hn Hk. induction k as [|k IH]; intros n s Hn Hk.
  - (* fewer than [chunkSize] bytes remain *)
    assert (Hc : 0 < chunkSize) by (rewrite chunkSize_val; lia).
    assert (Hlt : n < chunkSize).
    { destruct (Z_lt_le_dec n chunkSize) as [|Hge]; [assumption|].
      assert (1 <= n / chunkSize) by (apply Z.div_le_lower_bound; lia). lia. }
    rewrite chunkedLoop_eq.
    destruct (decide (n > 0)) as [Hpos|Hz].
    + destruct (decide (n >= chunkSize)); [lia|].
      rewrite chunks_small by lia. rewrite Hl. run_step.
      exists (
        {| mem := <[l := uint64 (load (mem s) l + uint64 n)]> (mem s);
           w := {| Header := Header (w s);
                   status := match status (w s) with
                             | Some c => Some c | None => Some 200 end;
                   writes := writes (w s) ++ [slice_to buffed n];
                   transport := tail (transport (w s)) |};
           logs := logs s;
           pC := match transport (w s) with
                 | Some _ :: _ =>
                   (pC s ++ [("chunkedBodyWriter", "n", "count", n)])
                   ++ [("chunkedBodyWriter", "Write", "error", 1)]
                 | _ => pC s ++ [("chunkedBodyWriter", "n", "count", n)]
                 end |}).
      assert (Hadv : advance (load (mem s) l)
                (uint64 (load (mem s) l + uint64 n))
                = uint64 (total [slice_to buffed n])).
      { rewrite advance_add, total_cons, total_nil, len_slice_to by lia.
        rewrite Z.add_0_r. unfold uint64. apply Z.mod_mod. lia. }
      destruct (transport (w s)) as [|[e|] tr']; cbn;
        (split; [reflexivity|]); (split; [reflexivity|]);
        rewrite load_insert_eq; (split; [exact Hadv|]);
        (split; [intros l' Hne; apply lookup_insert_ne; congruence|]);
        (split; [reflexivity|]); (split; [reflexivity|]);
        intros c Hs; rewrite Hs; reflexivity.
    + assert (n = 0) by lia. subst n. rewrite chunks_zero. cbn.
      exists s. rewrite app_nil_r, advance_refl, total_nil.
      repeat split; auto.
  - (* a full chunk *)
    assert (Hc : 0 < chunkSize) by (rewrite chunkSize_val; lia).
    assert (Hge : chunkSize <= n).
    { destruct (Z_lt_le_dec n chunkSize) as [Hlt|]; [|assumption].
      rewrite Z.div_small in Hk by lia. discriminate. }
    rewrite chunkedLoop_eq.
    destruct (decide (n > 0)); [|lia].
    destruct (decide (n >= chunkSize)); [|lia].
    rewrite chunks_step by lia. rewrite Hl. run_step.
    assert (Hadv1 : advance (load (mem s) l)
              (uint64 (load (mem s) l + uint64 chunkSize))
              = uint64 (len buffed)).
    { rewrite advance_add, len_buffed. unfold uint64. apply Z.mod_mod. lia. }
    destruct (transport (w s)) as [|[e|] tr'] eqn:Htr; cbn.
    + (* the script is used up: the write is accepted *)
      match goal with |- ∃ s', chunkedLoop h _ ?s1 = _ ∧ _ =>
        destruct (IH (n - chunkSize) s1) as (s' & Hrun & Hw & Ha & Hm & Hlg & Hh & Hst)
      end; [lia| |].
      { assert (Hq : n / chunkSize = (n - chunkSize) / chunkSize + 1).
        { replace n with ((n - chunkSize) + 1 * chunkSize) at 1 by lia.
          apply Z.div_add. lia. }
        assert (0 <= (n - chunkSize) / chunkSize) by (apply Z.div_pos; lia).
        lia. }
      cbn in *. destruct (performed [] (chunks (n - chunkSize))) as [ws r].
      cbn in *. exists s'. split; [exact Hrun|].
      split; [rewrite Hw, <- app_assoc; reflexivity|].
      rewrite load_insert_eq in Ha.
      split; [rewrite total_cons; exact (advance_trans _ _ _ _ _ Hadv1 Ha)|].
      split; [intros l' Hne; rewrite Hm by assumption;
              apply lookup_insert_ne; congruence|].
      split; [assumption|]. split; [assumption|].
      intros c Hs. apply Hst. rewrite Hs. reflexivity.
    + (* the write fails *)
      eexists. split; [reflexivity|]. cbn.
      split; [reflexivity|]. rewrite load_insert_eq.
      split; [rewrite total_cons, total_nil, Z.add_0_r; exact Hadv1|].
      split; [intros l' Hne; apply lookup_insert_ne; congruence|].
      split; [reflexivity|]. split; [reflexivity|].
      intros c Hs. rewrite Hs. reflexivity.
    + (* the write is accepted *)
      match goal with |- ∃ s', chunkedLoop h _ ?s1 = _ ∧ _ =>
        destruct (IH (n - chunkSize) s1) as (s' & Hrun & Hw & Ha & Hm & Hlg & Hh & Hst)
      end; [lia| |].
      { assert (Hq : n / chunkSize = (n - chunkSize) / chunkSize + 1).
        { replace n with ((n - chunkSize) + 1 * chunkSize) at 1 by lia.
          apply Z.div_add. lia. }
        assert (0 <= (n - chunkSize) / chunkSize) by (apply Z.div_pos; lia).
        lia. }
      cbn in *. destruct (performed tr' (chunks (n - chunkSize))) as [ws r].
      cbn in *. exists s'. split; [exact Hrun|].
      split; [rewrite Hw, <- app_assoc; reflexivity|].
      rewrite load_insert_eq in Ha.
      split; [rewrite total_cons; exact (advance_trans _ _ _ _ _ Hadv1 Ha)|].
      split; [intros l' Hne; rewrite Hm by assumption;
              apply lookup_insert_ne; congruence|].
      split; [assumption|]. split; [assumption|].
      intros c Hs. apply Hst. rewrite Hs. reflexivity.
Qed.

Lemma chunkedBodyWriter_run (h : handlers) (l : loc) (N : Z) (s : State) :
  BytesServed h = Some l -> 0 <= N ->
  ∃ s', chunkedBodyWriter h N s
          = Returned (performed (transport (w s)) (chunks N)).2 s'
    ∧ writes (w s') = writes (w s) ++ (performed (transport (w s)) (chunks N)).1
    ∧ advance (load (mem s) l) (load (mem s') l)
        = uint64 (total (performed (transport (w s)) (chunks N)).1)
    ∧ (∀ l', l' ≠ l -> mem s' !! l' = mem s !! l')
    ∧ logs s' = logs s
    ∧ Header (w s') = Header (w s)
    ∧ status (w s') = Some (default 200 (status (w s))).
Proof.
  intros Hl HN. unfold chunkedBodyWriter. run_step.
  match goal with |- ∃ s', chunkedLoop h N ?s1 = _ ∧ _ =>
    destruct (chunkedLoop_run h l N s1 Hl HN)
      as (s' & Hrun & Hw & Ha & Hm & Hlg & Hh & Hst)
  end.
  cbn in *. exists s'. repeat (split; [assumption|]).
  apply Hst. destruct (status (w s)); reflexivity.
Qed.

(** A transport that accepts every write of the response lets the writer
    return nil. *)
Lemma chunkedBodyWriter_healthy (h : handlers) (l : loc) (N : Z) (s : State) :
  BytesServed h = Some l -> 0 <= N ->
  Forall (fun r => r = None) (take (length (chunks N)) (transport (w s))) ->
  ∃ s', chunkedBodyWriter h N s = Returned None s'.
Proof.
  intros Hl HN Htr.
  destruct (chunkedBodyWriter_run h l N s Hl HN) as (s' & Hrun & _).
  rewrite performed_healthy in Hrun by assumption. eauto.
Qed.

(** Without a counter the writer panics before its first write. *)
Lemma chunkedBodyWriter_nil (h : handlers) (N : Z) (s : State) :
  BytesServed h = None -> 0 < N ->
  ∃ s', chunkedBodyWriter h N s = Panicked s'.
Proof.
  intros Hnil HN. unfold chunkedBodyWriter. run_step.
  rewrite chunkedLoop_eq.
  destruct (decide (N > 0)); [|lia].
  destruct (decide (N >= chunkSize)); rewrite Hnil; run_step; eauto.
Qed.

(** C1. For every length [0 <= N] (an [int64]), a run of
    [chunkedBodyWriter] that returns nil has handed to the destination
    exactly the writes [N] splits into: [N / chunkSize] times the full
    64 KiB block [buffed], then one remainder write of [N mod chunkSize]
    bytes if and only if that remainder is not zero; these writes hold [N]
    bytes in total, and the served counter has advanced by [N]. *)
Theorem chunked_writer_exact (h : handlers) (l : loc) (N : Z) (s s' : State) :
  BytesServed h = Some l ->
  0 <= N < 2 ^ 63 ->
  chunkedBodyWriter h N s = Returned None s' ->
  ∃ ws,
    writes (w s') = writes (w s) ++ ws
    ∧ ws = replicate (Z.to_nat (N / chunkSize)) buffed ++
           (if decide (N mod chunkSize = 0) then []
            else [slice_to buffed (N mod chunkSize)])
    ∧ len buffed = 64 * 1024
    ∧ len (slice_to buffed (N mod chunkSize)) = N mod chunkSize
    ∧ total ws = N
    ∧ advance (load (mem s) l) (load (mem s') l) = N.
Proof.
  intros Hl HN Hrun.
  destruct (chunkedBodyWriter_run h l N s Hl ltac:(lia))
    as (s1 & Hrun1 & Hw & Ha & _).
  rewrite Hrun in Hrun1. injection Hrun1 as Herr <-.
  symmetry in Herr. apply performed_success in Herr.
  rewrite Herr in Hw, Ha.
  assert (Hc : 0 < chunkSize) by (rewrite chunkSize_val; lia).
  pose proof (Z.mod_pos_bound N chunkSize Hc) as Hm.
  exists (chunks N). split; [exact Hw|]. split; [reflexivity|].
  split; [exact len_buffed|].
  split; [apply len_slice_to; lia|].
  split; [apply total_chunks; lia|].
  rewrite Ha, total_chunks by lia. apply uint64_small. lia.
Qed.


Lemma chunked_writer_exact_witness :
  let s' := final (chunkedBodyWriter hW 65537 (sW [])) in
  ∃ ws,
    writes (w s') = writes (w (sW [])) ++ ws
    ∧ ws = replicate (Z.to_nat (65537 / chunkSize)) buffed ++
           (if decide (65537 mod chunkSize = 0) then []
            else [slice_to buffed (65537 mod chunkSize)])
    ∧ len buffed = 64 * 1024
    ∧ len (slice_to buffed (65537 mod chunkSize)) = 65537 mod chunkSize
    ∧ total ws = 65537
    ∧ advance (load (mem (sW [])) 1%positive) (load (mem s') 1%positive)
      = 65537.
Proof.
  intros s'.
  apply (chunked_writer_exact hW 1%positive 65537 (sW []) s').
  - reflexivity.
  - lia.
  - destruct (chunkedBodyWriter_healthy hW 1%positive 65537 (sW []))
      as [s1 Hs1]; [reflexivity | lia | |].
    + cbn. rewrite take_nil. constructor.
    + unfold s'. rewrite Hs1. reflexivity.
Defined.


(** The reading of C3 made explicit: a write that fails is counted in
    full, because the counter is advanced before [Write] is called. *)
Example failed_write_is_counted :
  let s' := final (chunkedBodyWriter hW 131077
                     (sW [None; Some (Errno 32)])) in
  map len (writes (w s')) = [65536; 65536]
  ∧ load (mem s') 1%positive = 131072.
Proof. vm_compute. split; reflexivity. Qed.

#[local] Opaque chunkedBodyWriter.
Arguments FormatInt : simpl never.
Arguments smallContentLength : simpl never.
Arguments largeContentLength : simpl never.
Arguments ignorableError : simpl never.
Arguments fmt_s : simpl never.

Section HandlerRuns.
Context `{Syscall}.

(** [smallHandler] on GET and on HEAD alike: it runs the body writer. *)
Lemma smallHandler_run (h : handlers) (l : loc) (r : Request) (s : State) :
  BytesServed h = Some l ->
  Method r = MethodGet ∨ Method r = MethodHead ->
  let out := performed (transport (w s)) (chunks smallContentLength) in
  ∃ s', smallHandler h r s = Returned tt s'
    ∧ writes (w s') = writes (w s) ++ out.1
    ∧ advance (load (mem s) l) (load (mem s') l) = uint64 (total out.1)
    ∧ (∀ l', l' ≠ l -> mem s' !! l' = mem s !! l')
    ∧ logs s' = logs s ++ downloadLog smallContentLength out.2
    ∧ Header (w s') = downloadHeader (EnableCORS h) smallContentLength (Header (w s))
    ∧ status (w s') = Some (default 200 (status (w s))).
Proof.
  intros Hl Hm out. unfold smallHandler.
  destruct (decide (Method r ≠ MethodGet ∧ Method r ≠ MethodHead))
    as [[H1 H2]|_]; [destruct Hm; contradiction|].
  unfold setCors, downloadHeader, downloadLog. run_step.
  destruct (EnableCORS h); cbn;
    match goal with |- context [chunkedBodyWriter h ?N ?s1] =>
      destruct (chunkedBodyWriter_run h l N s1 Hl ltac:(unfold smallContentLength; lia))
        as (s' & Hrun & Hw & Ha & Hmem & Hlg & Hh & Hst)
    end; cbn in *; rewrite Hrun; fold out in Hw, Ha |- *;
    destruct (ignorableError out.2); cbn;
    eexists; (split; [reflexivity|]); cbn;
    rewrite ?app_nil_r; repeat (split; [first [assumption | congruence]|]);
    assumption.
Qed.

(** [largeHandler] on GET. *)
Lemma largeHandler_GET (h : handlers) (l : loc) (r : Request) (s : State) :
  BytesServed h = Some l ->
  Method r = MethodGet ->
  let out := performed (transport (w s)) (chunks largeContentLength) in
  ∃ s', largeHandler h r s = Returned tt s'
    ∧ writes (w s') = writes (w s) ++ out.1
    ∧ advance (load (mem s) l) (load (mem s') l) = uint64 (total out.1)
    ∧ (∀ l', l' ≠ l -> mem s' !! l' = mem s !! l')
    ∧ logs s' = logs s ++ downloadLog largeContentLength out.2
    ∧ Header (w s') = downloadHeader (EnableCORS h) largeContentLength (Header (w s))
    ∧ status (w s') = Some (default 200 (status (w s))).
Proof.
  intros Hl Hm out. unfold largeHandler.
  destruct (decide (Method r ≠ MethodGet ∧ Method r ≠ MethodHead))
    as [[H1 H2]|_]; [contradiction|].
  destruct (decide (Method r ≠ MethodGet)); [contradiction|].
  unfold setCors, downloadHeader, downloadLog. run_step.
  destruct (EnableCORS h); cbn;
    match goal with |- context [chunkedBodyWriter h ?N ?s1] =>
      destruct (chunkedBodyWriter_run h l N s1 Hl ltac:(unfold largeContentLength; lia))
        as (s' & Hrun & Hw & Ha & Hmem & Hlg & Hh & Hst)
    end; cbn in *; rewrite Hrun; fold out in Hw, Ha |- *;
    destruct (ignorableError out.2); cbn;
    eexists; (split; [reflexivity|]); cbn;
    rewrite ?app_nil_r; repeat (split; [first [assumption | congruence]|]);
    assumption.
Qed.

(** [largeHandler] on HEAD: the headers of GET, then an early return; the
    server sends status 200 when the handler has returned. *)
Lemma largeHandler_HEAD (h : handlers) (r : Request) (s : State) :
  Method r = MethodHead ->
  ∃ s', serve (largeHandler h) r s = Returned tt s'
    ∧ writes (w s') = writes (w s)
    ∧ mem s' = mem s
    ∧ logs s' = logs s
    ∧ Header (w s') = downloadHeader (EnableCORS h) largeContentLength (Header (w s))
    ∧ status (w s') = Some (default 200 (status (w s))).
Proof.
  intros Hm. unfold serve, finishRequest, largeHandler.
  destruct (decide (Method r ≠ MethodGet ∧ Method r ≠ MethodHead))
    as [[H1 H2]|_]; [contradiction|].
  destruct (decide (Method r ≠ MethodGet)) as [_|Hg];
    [|exfalso; apply Hg; rewrite Hm; discriminate].
  unfold setCors, downloadHeader. run_step.
  destruct (EnableCORS h); cbn; eexists; (split; [reflexivity|]); cbn;
    repeat (split; [reflexivity|]); destruct (status (w s)); reflexivity.
Qed.

End HandlerRuns.

(** C2. A HEAD request to [/small] is served like a GET: [smallHandler]
    has no early return for HEAD (the one [largeHandler] has), so it runs
    the body writer, which hands one byte to [Write] and advances the
    served counter by one. *)
Theorem small_HEAD_runs_body_writer :
  let r := {| Method := "HEAD"; Body := noBody |} in
  let s' := final (serve (@smallHandler linux hW) r (sW [])) in
  serve (@smallHandler linux hW) r (sW []) = Returned tt s'
  ∧ status (w s') = Some 200
  ∧ Header (w s') !! "Content-Length" = Some "1"
  ∧ writes (w s') = [["x"%byte]]
  ∧ advance (load (mem (sW [])) 1%positive) (load (mem s') 1%positive) = 1
  ∧ final (serve (@smallHandler linux hW) {| Method := "GET"; Body := noBody |}
             (sW [])) =
    {| mem := mem s'; w := w s'; logs := logs s';
       pC := ("smallHandler", "GET", "count", 1) :: tail (pC s') |}.
Proof. vm_compute. repeat split; reflexivity. Qed.

(** The same on every platform, for all handlers with a served counter and
    every state and transport: HEAD on [/small] passes one byte to [Write]
    and advances the counter by one. *)
Lemma small_HEAD_always_counts `{Syscall} (h : handlers) (l : loc)
    (body : Reader) (s : State) :
  BytesServed h = Some l ->
  ∃ s', smallHandler h {| Method := "HEAD"; Body := body |} s = Returned tt s'
    ∧ writes (w s') = writes (w s) ++ [slice_to buffed 1]
    ∧ advance (load (mem s) l) (load (mem s') l) = 1.
Proof.
  intros Hl.
  destruct (smallHandler_run h l {| Method := "HEAD"; Body := body |} s Hl
              (or_intror eq_refl)) as (s' & Hrun & Hw & Ha & _).
  change smallContentLength with 1 in Hw, Ha.
  rewrite chunks_small in Hw, Ha by (rewrite chunkSize_val; lia).
  exists s'. split; [exact Hrun|].
  destruct (transport (w s)) as [|[e|] tr]; cbn in Hw, Ha;
    rewrite total_cons, total_nil, len_slice_to in Ha
      by (rewrite chunkSize_val; lia);
    (split; [exact Hw | exact Ha]).
Qed.

(** The other half of C2 holds: a HEAD request to [/large] gets status
    200, the headers of a GET, no body and no change of any counter. *)
Lemma large_HEAD_ok `{Syscall} (h : handlers) (body : Reader)
    (s : State) (tr : list (option error)) :
  w s = newResponse tr ->
  ∃ s', serve (largeHandler h) {| Method := "HEAD"; Body := body |} s
          = Returned tt s'
    ∧ status (w s') = Some 200
    ∧ Header (w s') !! "Content-Length" = Some "8589934592"
    ∧ Header (w s') !! "Content-Type" = Some "application/octet-stream"
    ∧ writes (w s') = []
    ∧ mem s' = mem s.
Proof.
  intros Hw.
  destruct (largeHandler_HEAD h {| Method := "HEAD"; Body := body |} s eq_refl)
    as (s' & Hrun & Hwr & Hmem & _ & Hh & Hst).
  exists s'. rewrite Hw in *. cbn in *.
  split; [exact Hrun|]. split; [exact Hst|].
  rewrite Hh. unfold downloadHeader.
  destruct (EnableCORS h); repeat split; auto.
Qed.

(** C6. A request to a download endpoint whose method is neither GET nor
    HEAD, and a request to the discovery endpoint whose method is not GET,
    is answered with status 405 and no body; the store holding the byte
    counters, and the counters of the [Server], are left as they were. *)
Theorem method_not_allowed `{Syscall}
    (json_MarshalIndent : Discovery.configResp -> list byte)
    (method : string) (body : Reader) (h : handlers) (m : Discovery.Server)
    (s : State) (tr : list (option error)) :
  w s = newResponse tr ->
  method ≠ MethodGet ->
  let r := {| Method := method; Body := body |} in
  (method ≠ MethodHead ->
     (∃ s', smallHandler h r s = Returned tt s'
        ∧ status (w s') = Some StatusMethodNotAllowed
        ∧ writes (w s') = [] ∧ mem s' = mem s)
     ∧ (∃ s', largeHandler h r s = Returned tt s'
        ∧ status (w s') = Some StatusMethodNotAllowed
        ∧ writes (w s') = [] ∧ mem s' = mem s))
  ∧ (∃ s', Discovery.ConfigHandler json_MarshalIndent m r s = Returned m s'
        ∧ status (w s') = Some StatusMethodNotAllowed
        ∧ writes (w s') = [] ∧ mem s' = mem s).
Proof.
  intros Hw Hget r. split.
  - intros Hhead. unfold smallHandler, largeHandler. cbn.
    destruct (decide (method ≠ MethodGet ∧ method ≠ MethodHead))
      as [_|Hn]; [|exfalso; apply Hn; split; assumption].
    run_step. rewrite Hw. cbn.
    split; eexists; (split; [reflexivity|]); cbn; repeat split.
  - unfold Discovery.ConfigHandler. cbn.
    destruct (decide (method ≠ MethodGet)); [|contradiction].
    run_step. rewrite Hw. cbn.
    eexists; (split; [reflexivity|]); cbn; repeat split.
Qed.

Lemma method_not_allowed_witness :
  w (sW []) = newResponse [] ∧ "DELETE" ≠ MethodGet ∧
  let r := {| Method := "DELETE"; Body := noBody |} in
  let m := {| Discovery.PublicPort := 4043;
              Discovery.PublicHostPort := "nq.example.com:4043";
              Discovery.ContextPath := ""; Discovery.Scheme := "https";
              Discovery.EnableCORS := true; Discovery.EnableH3AltSvc := false;
              Discovery.BytesServed := 7; Discovery.BytesReceived := 9;
              Discovery.generatedConfig := [];
              Discovery.once := Discovery.OnceIdle |} in
  ("DELETE" ≠ MethodHead ->
     (∃ s', @smallHandler linux hW r (sW []) = Returned tt s'
        ∧ status (w s') = Some StatusMethodNotAllowed
        ∧ writes (w s') = [] ∧ mem s' = mem (sW []))
     ∧ (∃ s', @largeHandler linux hW r (sW []) = Returned tt s'
        ∧ status (w s') = Some StatusMethodNotAllowed
        ∧ writes (w s') = [] ∧ mem s' = mem (sW [])))
  ∧ (∃ s', @Discovery.ConfigHandler (fun _ => []) linux m r (sW [])
             = Returned m s'
        ∧ status (w s') = Some StatusMethodNotAllowed
        ∧ writes (w s') = [] ∧ mem s' = mem (sW [])).
Proof.
  split; [reflexivity|]. split; [discriminate|].
  apply (@method_not_allowed linux (fun _ => []) "DELETE" noBody hW _
           (sW []) []).
  - reflexivity.
  - discriminate.
Defined.

(** ** Write failures and the log *)

Lemma performed_failure (k : nat) (e : error) (rest : list (option error))
    (cs : list (list byte)) :
  (k < length cs)%nat ->
  performed (replicate k None ++ Some e :: rest) cs = (take (S k) cs, Some e).
Proof.
  revert cs. induction k as [|k IH]; intros cs Hk.
  - destruct cs as [|c cs]; [simpl in Hk; lia|]. cbn. rewrite take_0. reflexivity.
  - destruct cs as [|c cs]; [simpl in Hk; lia|]. simpl in Hk.
    change (replicate (S k) None ++ Some e :: rest)
      with (@None error :: (replicate k None ++ Some e :: rest)).
    cbn [performed]. rewrite IH by lia. reflexivity.
Qed.

Lemma length_chunks (n : Z) (k : nat) :
  0 <= n -> Z.of_nat k * chunkSize < n -> (k < length (chunks n))%nat.
Proof.
  intros Hn Hk. unfold chunks.
  assert (Hc : 0 < chunkSize) by (rewrite chunkSize_val; lia).
  pose proof (Z.mod_pos_bound n chunkSize Hc) as Hm.
  pose proof (Z.div_mod n chunkSize ltac:(lia)) as Hd.
  assert (0 <= n / chunkSize) by (apply Z.div_pos; lia).
  rewrite length_app, length_replicate.
  destruct (decide (n mod chunkSize = 0)) as [H0|H0]; cbn; nia.
Qed.

(** C8 (as the code has it). When a write of a download response fails
    (the transport accepts [k] writes and fails the next one, which the
    response still has to make, with [e]): a failure that
    [ignorableError] accepts adds no line to the log; any other failure
    adds exactly one line, which gives the target size and the text of the
    error. The line does not name the endpoint. *)
Theorem download_failure_logging `{Syscall}
    (h : handlers) (l : loc) (r : Request) (s : State)
    (k : nat) (e : error) (rest : list (option error)) :
  BytesServed h = Some l ->
  Method r = MethodGet ->
  transport (w s) = replicate k None ++ Some e :: rest ->
  (Z.of_nat k * chunkSize < smallContentLength ->
   ∃ s', smallHandler h r s = Returned tt s'
     ∧ logs s' = logs s ++
         (if ignorableError (Some e) then []
          else ["Error writing content of length 1: " +:+ Error e]))
  ∧ (Z.of_nat k * chunkSize < largeContentLength ->
   ∃ s', largeHandler h r s = Returned tt s'
     ∧ logs s' = logs s ++
         (if ignorableError (Some e) then []
          else ["Error writing content of length 8589934592: " +:+ Error e])).
Proof.
  intros Hl Hm Htr. split; intros Hk.
  - destruct (smallHandler_run h l r s Hl (or_introl Hm))
      as (s' & Hrun & _ & _ & _ & Hlg & _).
    rewrite Htr, performed_failure in Hlg
      by (apply length_chunks; [unfold smallContentLength; lia | exact Hk]).
    exists s'. split; [exact Hrun|]. exact Hlg.
  - destruct (largeHandler_GET h l r s Hl Hm)
      as (s' & Hrun & _ & _ & _ & Hlg & _).
    rewrite Htr, performed_failure in Hlg
      by (apply length_chunks; [unfold largeContentLength; lia | exact Hk]).
    exists s'. split; [exact Hrun|]. exact Hlg.
Qed.

Lemma download_failure_logging_witness :
  let e := wrapError "write tcp 127.0.0.1:4043: i/o timeout"
             (errorString "i/o timeout") in
  let r := {| Method := "GET"; Body := noBody |} in
  BytesServed hW = Some 1%positive ∧ Method r = MethodGet ∧
  transport (w (sW [Some e])) = replicate 0 None ++ Some e :: [] ∧
  (Z.of_nat 0 * chunkSize < smallContentLength ->
   ∃ s', @smallHandler linux hW r (sW [Some e]) = Returned tt s'
     ∧ logs s' = logs (sW [Some e]) ++
         (if @ignorableError linux (Some e) then []
          else ["Error writing content of length 1: " +:+ @Error linux e]))
  ∧ (Z.of_nat 0 * chunkSize < largeContentLength ->
   ∃ s', @largeHandler linux hW r (sW [Some e]) = Returned tt s'
     ∧ logs s' = logs (sW [Some e]) ++
         (if @ignorableError linux (Some e) then []
          else ["Error writing content of length 8589934592: "
                +:+ @Error linux e])).
Proof.
  intros e r. split; [reflexivity|]. split; [reflexivity|].
  split; [reflexivity|].
  apply (@download_failure_logging linux hW 1%positive r (sW [Some e])
           0%nat e []); reflexivity.
Defined.

(** C8 as the spec states it fails: the one line logged for a write failure
    that is not ignorable gives the target size but names no endpoint, on
    [/small] and on [/large] alike. *)
Lemma download_log_omits_endpoint :
  let r := {| Method := "GET"; Body := noBody |} in
  let boom := errorString "boom" in
  (∃ line,
     logs (final (@smallHandler linux hW r (sW [Some boom]))) = [line]
     ∧ line = "Error writing content of length 1: boom"
     ∧ mentions line "1" = true
     ∧ mentions line "small" = false)
  ∧ (∃ line,
     logs (final (@largeHandler linux hW r (sW [Some boom]))) = [line]
     ∧ line = "Error writing content of length 8589934592: boom"
     ∧ mentions line "8589934592" = true
     ∧ mentions line "large" = false).
Proof.
  intros r boom. split.
  - eexists. split; [vm_compute; reflexivity|]. vm_compute. repeat split.
  - destruct (@largeHandler_GET linux hW 1%positive r (sW [Some boom])
                eq_refl eq_refl) as (s' & Hrun & _ & _ & _ & Hlg & _).
    rewrite Hrun. cbn [final].
    rewrite chunks_step in Hlg by (vm_compute; discriminate).
    cbn in Hlg. rewrite Hlg.
    eexists. split; [vm_compute; reflexivity|]. vm_compute. repeat split.
Qed.

(** ** Uploads *)

Section Uploads.
Context `{Syscall}.

Lemma ReadFrom_loop_run (cb : countingDiscard) (l : loc)
    (rs : list (list byte)) (last : list byte) (err : error)
    (n : Z) (s : State) :
  byteCounter cb = Some l ->
  ∃ n' s', ReadFrom_loop cb rs last err n s = Returned (n', readResult err) s'
    ∧ advance (load (mem s) l) (load (mem s') l)
        = uint64 (total (rs ++ [last]))
    ∧ (∀ l', l' ≠ l -> mem s' !! l' = mem s !! l')
    ∧ w s' = w s ∧ logs s' = logs s ∧ pC s' = pC s.
Proof.
  intros Hl. revert n s.
  induction rs as [|block rs IH]; intros n s; cbn [ReadFrom_loop app].
  - rewrite Hl. run_step.
    assert (Ha : advance (load (mem s) l)
                   (uint64 (load (mem s) l + uint64 (len last)))
                 = uint64 (total [last])).
    { rewrite advance_add, total_cons, total_nil, Z.add_0_r.
      unfold uint64. apply Z.mod_mod. lia. }
    destruct err; cbn; eexists _, _; (split; [reflexivity|]); cbn;
      rewrite load_insert_eq; (split; [exact Ha|]);
      (split; [intros l' Hne; apply lookup_insert_ne; congruence|]);
      repeat split.
  - rewrite Hl. run_step.
    match goal with |- ∃ n' s', ReadFrom_loop cb rs last err ?n1 ?s1 = _ ∧ _ =>
      destruct (IH n1 s1) as (n' & s' & Hrun & Ha & Hm & Hw & Hlg & Hpc)
    end.
    cbn in *. rewrite load_insert_eq in Ha.
    exists n', s'. split; [exact Hrun|].
    split.
    { rewrite total_cons.
      eapply advance_trans; [|exact Ha].
      rewrite advance_add. unfold uint64. apply Z.mod_mod. lia. }
    split; [intros l' Hne; rewrite Hm by assumption;
            apply lookup_insert_ne; congruence|].
    repeat split; assumption.
Qed.

Lemma ReadFrom_loop_nil (cb : countingDiscard)
    (rs : list (list byte)) (last : list byte) (err : error)
    (n : Z) (s : State) :
  byteCounter cb = None ->
  ReadFrom_loop cb rs last err n s = Panicked s.
Proof.
  intros Hnil. destruct rs; cbn [ReadFrom_loop]; rewrite Hnil; reflexivity.
Qed.

(** [io.Copy] into the discard sink, with a counter to count into. *)
Lemma io_Copy_run (cb : countingDiscard) (l : loc) (src : Reader)
    (s : State) :
  byteCounter cb = Some l ->
  ∃ n' s', io_Copy cb src s = Returned (n', readResult (lastErr src)) s'
    ∧ advance (load (mem s) l) (load (mem s') l)
        = uint64 (total (reads src ++ [lastRead src]))
    ∧ (∀ l', l' ≠ l -> mem s' !! l' = mem s !! l')
    ∧ w s' = w s ∧ logs s' = logs s ∧ pC s' = pC s.
Proof.
  intros Hl. destruct src as [|rs last err].
  - exists 0, s. cbn. rewrite advance_refl. repeat split.
  - apply (ReadFrom_loop_run cb l rs last err 0 s Hl).
Qed.

(** Without a counter, [io.Copy] panics on every body but [http.NoBody],
    which it does not read. *)
Lemma io_Copy_nil (cb : countingDiscard) (src : Reader) (s : State) :
  byteCounter cb = None ->
  io_Copy cb src s
  = match src with
    | http_NoBody => Returned (0, None) s
    | streamed _ _ _ => Panicked s
    end.
Proof.
  intros Hnil. destruct src as [|rs last err]; [reflexivity|].
  apply ReadFrom_loop_nil. exact Hnil.
Qed.

(** The write methods of the sink count nothing, so they are safe with a
    nil counter too. *)
Lemma countingDiscard_Write_counts_nothing (cb : countingDiscard)
    (p : list byte) (str : string) (s : State) :
  countingDiscard_Write cb p s = Returned (len p, None) s
  ∧ countingDiscard_WriteString cb str s
    = Returned (Z.of_nat (String.length str), None) s.
Proof. split; reflexivity. Qed.

(** [slurpHandler] with a counter to count into. *)
Lemma slurpHandler_run (h : handlers) (l : loc) (r : Request) (s : State) :
  BytesReceived h = Some l ->
  ∃ s', slurpHandler h r s = Returned tt s'
    ∧ advance (load (mem s) l) (load (mem s') l)
        = uint64 (total (reads (Body r) ++ [lastRead (Body r)]))
    ∧ (∀ l', l' ≠ l -> mem s' !! l' = mem s !! l')
    ∧ logs s' = logs s
    ∧ match readResult (lastErr (Body r)) with
      | None =>
          status (w s') = Some (default StatusOK (status (w s)))
          ∧ writes (w s') = writes (w s)
      | Some e =>
          status (w s') = Some (default StatusBadRequest (status (w s)))
          ∧ writes (w s') = writes (w s) ++
              [list_byte_of_string (Error e +:+ String "010"%char EmptyString)]
      end.
Proof.
  intros Hl. unfold slurpHandler, setNoPublicCache, setCors.
  run_step.
  destruct (EnableCORS h); cbn -[io_Copy];
    match goal with |- context [io_Copy ?cb ?src ?s1] =>
      destruct (io_Copy_run cb l src s1 Hl)
        as (n' & s' & Hrun & Ha & Hm & Hw & Hlg & Hpc)
    end; rewrite Hrun; cbn in *;
    destruct (readResult (lastErr (Body r))) as [e|]; unfold http_Error;
    run_step; eexists; (split; [reflexivity|]); cbn; rewrite Hw; cbn;
    (split; [exact Ha|]); (split; [exact Hm|]); (split; [exact Hlg|]);
    destruct (status (w s)); split; reflexivity.
Qed.

End Uploads.

Lemma total_reads (b : Reader) :
  total (reads b ++ [lastRead b]) = len (bodyBytes b).
Proof.
  unfold total, bodyBytes. rewrite concat_app. cbn. rewrite app_nil_r.
  reflexivity.
Qed.

(** C4. An upload whose body ends with [io.EOF] after [K] bytes, however
    the reads cut the body into blocks, advances the received counter by
    [K] and is answered with status 200 and no body. *)
Theorem upload_counts_every_byte `{Syscall}
    (h : handlers) (l : loc) (r : Request) (s : State)
    (tr : list (option error)) :
  BytesReceived h = Some l ->
  w s = newResponse tr ->
  lastErr (Body r) = io_EOF ->
  len (bodyBytes (Body r)) < 2 ^ 64 ->
  ∃ s', slurpHandler h r s = Returned tt s'
    ∧ advance (load (mem s) l) (load (mem s') l) = len (bodyBytes (Body r))
    ∧ status (w s') = Some StatusOK
    ∧ writes (w s') = [].
Proof.
  intros Hl Hw Heof HK.
  destruct (slurpHandler_run h l r s Hl) as (s' & Hrun & Ha & _ & _ & Hres).
  rewrite Heof, Hw in Hres. cbn in Hres. destruct Hres as [Hst Hwr].
  exists s'. split; [exact Hrun|].
  split; [|split; assumption].
  rewrite Ha, total_reads. apply uint64_small. unfold len in *. lia.
Qed.

Lemma upload_counts_every_byte_witness :
  let r := {| Method := "POST";
              Body := streamed [["a"%byte; "b"%byte]; []; ["c"%byte]] ["d"%byte] io_EOF |} in
  BytesReceived hW = Some 2%positive ∧ w (sW []) = newResponse [] ∧
  lastErr (Body r) = io_EOF ∧ len (bodyBytes (Body r)) < 2 ^ 64 ∧
  ∃ s', @slurpHandler linux hW r (sW []) = Returned tt s'
    ∧ advance (load (mem (sW [])) 2%positive) (load (mem s') 2%positive)
      = len (bodyBytes (Body r))
    ∧ status (w s') = Some StatusOK
    ∧ writes (w s') = [].
Proof.
  intros r. do 3 (split; [reflexivity|]).
  split; [vm_compute; reflexivity|].
  apply (@upload_counts_every_byte linux hW 2%positive r (sW []) []);
    first [reflexivity | vm_compute; reflexivity].
Defined.

(** ** Handlers built with and without counters *)

Lemma append_assoc (a b c : string) : (a +:+ b) +:+ c = a +:+ b +:+ c.
Proof.
  induction a as [|x a IH]; [reflexivity|].
  change (String x ((a +:+ b) +:+ c) = String x (a +:+ b +:+ c)).
  f_equal. exact IH.
Qed.

Lemma append_inj_r (p a b : string) : p +:+ a = p +:+ b -> a = b.
Proof.
  induction p as [|c p IH]; cbn; intros Heq; [assumption|].
  injection Heq as Heq. auto.
Qed.

Section Maps.
Context `{Syscall}.

Lemma handler_map_lookup (prefix : string) (a b c : Request -> M unit) :
  let m := <[prefix +:+ "/small" := a]>
           (<[prefix +:+ "/large" := b]>
           (<[prefix +:+ "/slurp" := c]> (∅ : gmap string (Request -> M unit)))) in
  m !! (prefix +:+ "/small") = Some a
  ∧ m !! (prefix +:+ "/large") = Some b
  ∧ m !! (prefix +:+ "/slurp") = Some c.
Proof.
  intros m. unfold m.
  assert (prefix +:+ "/small" ≠ prefix +:+ "/large")
    by (intros E; apply append_inj_r in E; discriminate).
  assert (prefix +:+ "/small" ≠ prefix +:+ "/slurp")
    by (intros E; apply append_inj_r in E; discriminate).
  assert (prefix +:+ "/large" ≠ prefix +:+ "/slurp")
    by (intros E; apply append_inj_r in E; discriminate).
  repeat split.
  - apply lookup_insert_eq.
  - rewrite lookup_insert_ne by assumption. apply lookup_insert_eq.
  - rewrite !lookup_insert_ne by assumption. apply lookup_insert_eq.
Qed.

Lemma method_cases (method : string) :
  ¬ (method ≠ MethodGet ∧ method ≠ MethodHead) ->
  method = MethodGet ∨ method = MethodHead.
Proof.
  intros Hn.
  destruct (decide (method = MethodGet)); [left; assumption|].
  destruct (decide (method = MethodHead)); [right; assumption|].
  exfalso. apply Hn. split; assumption.
Qed.

Lemma smallHandler_returns (h : handlers) (l : loc) (r : Request) (s : State) :
  BytesServed h = Some l -> ∃ s', smallHandler h r s = Returned tt s'.
Proof.
  intros Hl.
  destruct (decide (Method r ≠ MethodGet ∧ Method r ≠ MethodHead)) as [Hm|Hm].
  - unfold smallHandler. destruct (decide _); [|contradiction].
    run_step. eauto.
  - destruct (smallHandler_run h l r s Hl (method_cases _ Hm)) as (s' & Hrun & _).
    eauto.
Qed.

Lemma largeHandler_returns (h : handlers) (l : loc) (r : Request) (s : State) :
  BytesServed h = Some l -> ∃ s', largeHandler h r s = Returned tt s'.
Proof.
  intros Hl.
  destruct (decide (Method r = MethodGet)) as [Hg|Hg].
  - destruct (largeHandler_GET h l r s Hl Hg) as (s' & Hrun & _). eauto.
  - unfold largeHandler, setCors.
    destruct (decide (Method r ≠ MethodGet ∧ Method r ≠ MethodHead)).
    + run_step. eauto.
    + destruct (decide (Method r ≠ MethodGet)); [|contradiction].
      run_step. destruct (EnableCORS h); cbn; eauto.
Qed.

Lemma smallHandler_nil (h : handlers) (r : Request) (s : State) :
  BytesServed h = None -> Method r = MethodGet ->
  ∃ s', smallHandler h r s = Panicked s'.
Proof.
  intros Hnil Hm. unfold smallHandler, setCors.
  destruct (decide (Method r ≠ MethodGet ∧ Method r ≠ MethodHead))
    as [[H1 _]|_]; [contradiction|].
  run_step.
  destruct (EnableCORS h); cbn;
    match goal with |- context [chunkedBodyWriter h ?N ?s1] =>
      destruct (chunkedBodyWriter_nil h N s1 Hnil ltac:(reflexivity))
        as [s' Hrun]
    end; rewrite Hrun; eauto.
Qed.

Lemma largeHandler_nil (h : handlers) (r : Request) (s : State) :
  BytesServed h = None -> Method r = MethodGet ->
  ∃ s', largeHandler h r s = Panicked s'.
Proof.
  intros Hnil Hm. unfold largeHandler, setCors.
  destruct (decide (Method r ≠ MethodGet ∧ Method r ≠ MethodHead))
    as [[H1 _]|_]; [contradiction|].
  destruct (decide (Method r ≠ MethodGet)); [contradiction|].
  run_step.
  destruct (EnableCORS h); cbn;
    match goal with |- context [chunkedBodyWriter h ?N ?s1] =>
      destruct (chunkedBodyWriter_nil h N s1 Hnil ltac:(reflexivity))
        as [s' Hrun]
    end; rewrite Hrun; eauto.
Qed.

Lemma slurpHandler_nil (h : handlers) (r : Request) (s : State) :
  BytesReceived h = None -> Body r ≠ http_NoBody ->
  ∃ s', slurpHandler h r s = Panicked s'.
Proof.
  intros Hnil Hbody.
  unfold slurpHandler, setNoPublicCache, setCors.
  run_step.
  destruct (EnableCORS h); cbn -[io_Copy]; rewrite io_Copy_nil by exact Hnil;
    destruct (Body r); [contradiction | eauto | contradiction | eauto].
Qed.

(** A request without a body is not read: [slurpHandler] answers it even
    without a counter. *)
Lemma slurpHandler_nil_NoBody (h : handlers) (r : Request) (s : State) :
  BytesReceived h = None -> Body r = http_NoBody ->
  ∃ s', slurpHandler h r s = Returned tt s' ∧ mem s' = mem s.
Proof.
  intros Hnil Hbody.
  unfold slurpHandler, setNoPublicCache, setCors.
  run_step.
  destruct (EnableCORS h); cbn -[io_Copy]; rewrite io_Copy_nil by exact Hnil;
    rewrite Hbody; cbn; eauto.
Qed.

Lemma nonempty_not_NoBody (b : Reader) :
  bodyBytes b ≠ [] -> b ≠ http_NoBody.
Proof. intros Hne ->. apply Hne. reflexivity. Qed.

End Maps.

(** C10. No counter update checks its pointer, and [BulkHandlers] builds
    its handlers with both counter pointers nil: with them every GET
    download panics on its first counter update, and so does every upload
    whose body is read, which every non-empty upload is (only the request
    without a body, [http.NoBody], is answered, because [io.Copy] does not
    read it). With the handlers of [CountingBulkHandlers] over two
    non-nil pointers, every request to each of the three handlers
    returns. *)
Theorem counters_must_not_be_nil `{Syscall} (prefix : string) (cors : bool) :
  (∃ small large slurp,
     BulkHandlers prefix cors !! (prefix +:+ "/small") = Some small
     ∧ BulkHandlers prefix cors !! (prefix +:+ "/large") = Some large
     ∧ BulkHandlers prefix cors !! (prefix +:+ "/slurp") = Some slurp
     ∧ (∀ body s, ∃ s',
          small {| Method := "GET"; Body := body |} s = Panicked s')
     ∧ (∀ body s, ∃ s',
          large {| Method := "GET"; Body := body |} s = Panicked s')
     ∧ (∀ r s, bodyBytes (Body r) ≠ [] -> ∃ s', slurp r s = Panicked s')
     ∧ (∀ r s, Body r ≠ http_NoBody -> ∃ s', slurp r s = Panicked s')
     ∧ (∀ r s, Body r = http_NoBody -> ∃ s', slurp r s = Returned tt s'))
  ∧ (∀ ls lr : loc, ∃ small large slurp,
     CountingBulkHandlers prefix cors (Some ls) (Some lr)
       !! (prefix +:+ "/small") = Some small
     ∧ CountingBulkHandlers prefix cors (Some ls) (Some lr)
       !! (prefix +:+ "/large") = Some large
     ∧ CountingBulkHandlers prefix cors (Some ls) (Some lr)
       !! (prefix +:+ "/slurp") = Some slurp
     ∧ (∀ r s, ∃ s', small r s = Returned tt s')
     ∧ (∀ r s, ∃ s', large r s = Returned tt s')
     ∧ (∀ r s, ∃ s', slurp r s = Returned tt s')).
Proof.
  split.
  - unfold BulkHandlers.
    set (h := {| EnableCORS := cors; BytesServed := None;
                 BytesReceived := None |}).
    destruct (handler_map_lookup prefix (smallHandler h) (largeHandler h)
                (slurpHandler h)) as (H1 & H2 & H3).
    exists (smallHandler h), (largeHandler h), (slurpHandler h).
    repeat (split; [assumption|]).
    split; [|split; [|split; [|split]]].
    + intros body s. apply smallHandler_nil; reflexivity.
    + intros body s. apply largeHandler_nil; reflexivity.
    + intros r s Hne. apply slurpHandler_nil; [reflexivity|].
      apply nonempty_not_NoBody. exact Hne.
    + intros r s Hb. apply slurpHandler_nil; [reflexivity | exact Hb].
    + intros r s Hb.
      destruct (slurpHandler_nil_NoBody h r s eq_refl Hb) as (s' & Hrun & _).
      eauto.
  - intros ls lr. unfold CountingBulkHandlers.
    set (h := {| EnableCORS := cors; BytesServed := Some ls;
                 BytesReceived := Some lr |}).
    destruct (handler_map_lookup prefix (smallHandler h) (largeHandler h)
                (slurpHandler h)) as (H1 & H2 & H3).
    exists (smallHandler h), (largeHandler h), (slurpHandler h).
    repeat (split; [assumption|]).
    split; [|split].
    + intros r s. apply (smallHandler_returns h ls); reflexivity.
    + intros r s. apply (largeHandler_returns h ls); reflexivity.
    + intros r s.
      destruct (slurpHandler_run h lr r s eq_refl) as (s' & Hrun & _). eauto.
Qed.

Lemma counters_must_not_be_nil_witness :
  let upload := {| Method := "POST";
                   Body := streamed [["a"%byte; "b"%byte]] ["c"%byte]
                             io_EOF |} in
  let bare := {| Method := "POST"; Body := http_NoBody |} in
  bodyBytes (Body upload) ≠ [] ∧ Body upload ≠ http_NoBody ∧
  Body bare = http_NoBody ∧
  ∃ slurp,
    @BulkHandlers linux "" false !! ("" +:+ "/slurp") = Some slurp
    ∧ (∃ s', slurp upload (sW []) = Panicked s')
    ∧ (∃ s', slurp bare (sW []) = Returned tt s').
Proof.
  intros upload bare.
  assert (Hne : bodyBytes (Body upload) ≠ []) by discriminate.
  assert (Hnb : Body upload ≠ http_NoBody) by discriminate.
  split; [exact Hne|]. split; [exact Hnb|]. split; [reflexivity|].
  destruct (@counters_must_not_be_nil linux "" false)
    as [(small & large & slurp & _ & _ & H3 & _ & _ & Hp & _ & Hr) _].
  exists slurp. split; [exact H3|]. split.
  - apply Hp. exact Hne.
  - apply Hr. reflexivity.
Defined.

(** ** The error classifier *)

Lemma errors_Is_unwraps (err : error) (target : Z) :
  errors_Is err target = true <-> unwraps err (Errno target).
Proof.
  induction err as [|e|t|msg inner IH]; cbn.
  - split; [discriminate | inversion 1].
  - rewrite Z.eqb_eq. split.
    + intros ->. constructor.
    + inversion 1. reflexivity.
  - split; [discriminate | inversion 1].
  - rewrite IH. split.
    + intros Hu. constructor. exact Hu.
    + inversion 1; subst. assumption.
Qed.

(** C7. [ignorableError] answers true exactly for: the nil error; an error
    with [EPIPE] (broken pipe) on its chain; an error with [ECONNRESET]
    (connection reset) on its chain; an error whose text is
    ["client disconnected"], the signal of the HTTP/2 layer. For every
    other error it answers false. *)
Theorem ignorableError_exactly `{Syscall} (err : option error) :
  (ignorableError err = true <->
     err = None
     ∨ ∃ e, err = Some e
          ∧ (unwraps e (Errno EPIPE)
             ∨ unwraps e (Errno ECONNRESET)
             ∨ Error e = "client disconnected"))
  ∧ (ignorableError err = false <->
     ∃ e, err = Some e
        ∧ ¬ unwraps e (Errno EPIPE)
        ∧ ¬ unwraps e (Errno ECONNRESET)
        ∧ Error e ≠ "client disconnected").
Proof.
  unfold ignorableError. destruct err as [e|].
  - pose proof (errors_Is_unwraps e EPIPE) as Hp.
    pose proof (errors_Is_unwraps e ECONNRESET) as Hr.
    destruct (errors_Is e EPIPE).
    2: destruct (errors_Is e ECONNRESET).
    3: destruct (String.eqb (Error e) "client disconnected") eqn:Hs.
    3: apply String.eqb_eq in Hs.
    4: apply String.eqb_neq in Hs.
    + split; split; try discriminate; try (intros; reflexivity).
      * intros _. right. exists e. split; [reflexivity|]. left. tauto.
      * intros (e' & [= <-] & Hn & _). exfalso. tauto.
    + split; split; try discriminate; try (intros; reflexivity).
      * intros _. right. exists e. split; [reflexivity|]. right. left. tauto.
      * intros (e' & [= <-] & _ & Hn & _). exfalso. tauto.
    + split; split; try discriminate; try (intros; reflexivity).
      * intros _. right. exists e. split; [reflexivity|]. right. right.
        assumption.
      * intros (e' & [= <-] & _ & _ & Hn). contradiction.
    + split; split; try discriminate; try (intros; reflexivity).
      * intros [Hn | (e' & [= <-] & [H1 | [H2 | H3]])];
          [discriminate | | | contradiction].
        -- apply Hp in H1. discriminate.
        -- apply Hr in H2. discriminate.
      * intros _. exists e. split; [reflexivity|].
        split; [intros Hu; apply Hp in Hu; discriminate|].
        split; [intros Hu; apply Hr in Hu; discriminate|]. assumption.
  - split; split; try discriminate; try (intros; reflexivity).
    + intros _. left. reflexivity.
    + intros (e & He & _). discriminate.
Qed.

Example ignorable_broken_pipe :
  @ignorableError linux
    (Some (wrapError "write tcp 10.0.0.1:4043->10.0.0.2:51234: write: broken pipe"
             (wrapError "write: broken pipe" (Errno 32)))) = true.
Proof. reflexivity. Qed.

Example ignorable_client_disconnected :
  @ignorableError linux (Some (errorString "client disconnected")) = true.
Proof. reflexivity. Qed.

Example reported_timeout :
  @ignorableError linux (Some (errorString "i/o timeout")) = false.
Proof. reflexivity. Qed.

(** ** The discovery document: its URLs *)

Module DiscoveryFacts.
Import Discovery.

(** C9. Each URL the discovery document is built from is the scheme,
    ["://"], the host and port, the prefix and the endpoint suffix put
    together; each [https] field holds the same text as its plain field;
    the handler serves the marshalling of exactly this value; and for
    scheme ["https"], host and port ["nq.example.com:4043"] and an empty
    prefix the small download URL is
    ["https://nq.example.com:4043/small"]. *)
Theorem discovery_urls `{Syscall}
    (json_MarshalIndent : configResp -> list byte) (m : Server) :
  let urls := Urls (configDocument m) in
  let base := Scheme m +:+ "://" +:+ PublicHostPort m +:+ ContextPath m in
  (SmallDownloadURL urls = base +:+ "/small"
   ∧ LargeDownloadURL urls = base +:+ "/large"
   ∧ UploadURL urls = base +:+ "/slurp")
  ∧ (SmallHTTPSDownloadURL urls = SmallDownloadURL urls
     ∧ LargeHTTPSDownloadURL urls = LargeDownloadURL urls
     ∧ HTTPSUploadURL urls = UploadURL urls)
  ∧ generatedConfig (generateConfig json_MarshalIndent m)
    = json_MarshalIndent {| Version := 1; Urls := urls |}
  ∧ SmallDownloadURL
      (Urls (configDocument
         {| PublicPort := PublicPort m;
            PublicHostPort := "nq.example.com:4043";
            ContextPath := ""; Scheme := "https";
            EnableCORS := EnableCORS m; EnableH3AltSvc := EnableH3AltSvc m;
            BytesServed := BytesServed m; BytesReceived := BytesReceived m;
            generatedConfig := generatedConfig m; once := once m |}))
    = "https://nq.example.com:4043/small".
Proof.
  intros urls base.
  unfold urls, base. cbn.
  unfold generateSmallDownloadURL, generateLargeDownloadURL,
    generateUploadURL. cbn.
  rewrite !append_assoc. repeat split.
Qed.

(** ** The discovery document: built once *)

Section Once.
Variable json_MarshalIndent : configResp -> list byte.
Context `{Syscall}.

Abbreviation step := (step json_MarshalIndent).
Abbreviation run := (run json_MarshalIndent).

(** [respondConfig] always returns, having written the cached bytes. *)
Lemma respondConfig_run (m : Server) (s : State) :
  ∃ s', respondConfig m s = Returned tt s'
    ∧ writes (w s') = writes (w s) ++ [generatedConfig m]
    ∧ mem s' = mem s.
Proof.
  unfold respondConfig, setCors. run_step.
  destruct (EnableH3AltSvc m), (EnableCORS m),
    (transport (w s)) as [|[e|] tr]; cbn;
    eexists; (split; [reflexivity|]); cbn; split; reflexivity.
Qed.

Lemma thread_ok_ext (m m' : Server) (th : thread) :
  once m' = once m -> generatedConfig m' = generatedConfig m ->
  thread_ok m th -> thread_ok m' th.
Proof.
  unfold thread_ok. intros -> ->. trivial.
Qed.

Lemma inv_boot (m : Server) : once m = OnceIdle -> inv (boot m).
Proof.
  intros Hm. unfold inv, boot. cbn. rewrite Hm.
  split; [intros i th Hi; rewrite lookup_nil in Hi; discriminate|].
  split; [reflexivity|].
  intros i j thi thj Hi. rewrite lookup_nil in Hi. discriminate.
Qed.

(** A goroutine that is not building can be put anywhere without making a
    second builder. *)
Lemma one_builder_insert (ths : list thread) (t : nat) (th' : thread) :
  (∀ i j thi thj, ths !! i = Some thi -> ths !! j = Some thj ->
     at_pc thi = InBuild -> at_pc thj = InBuild -> i = j) ->
  at_pc th' ≠ InBuild ->
  ∀ i j thi thj,
    <[t := th']> ths !! i = Some thi -> <[t := th']> ths !! j = Some thj ->
    at_pc thi = InBuild -> at_pc thj = InBuild -> i = j.
Proof.
  intros Hone Hnb i j thi thj Hi Hj Hbi Hbj.
  apply list_lookup_insert_Some in Hi as [(-> & <- & _) | (Hti & Hi)];
    [contradiction|].
  apply list_lookup_insert_Some in Hj as [(-> & <- & _) | (Htj & Hj)];
    [contradiction|].
  eauto.
Qed.

Ltac builds_goal Hb :=
  cbn; cbn in Hb;
  try match goal with
      | Ho : once _ = _ |- _ => rewrite ?Ho in Hb; rewrite ?Ho
      end;
  cbn; first [exact Hb | lia].

Lemma inv_step (sys : system) (ev : event) : inv sys -> inv (step sys ev).
Proof.
  intros (Hok & Hb & Hone). destruct ev as [r tr | t | c]; cbn.
  - (* a request arrives *)
    split; [|split; [exact Hb|]].
    + intros i th Hi. apply lookup_app_Some in Hi as [Hi | (_ & Hi)];
        [eauto|].
      apply list_lookup_singleton_Some in Hi as (_ & <-). reflexivity.
    + intros i j thi thj Hi Hj Hbi Hbj.
      apply lookup_app_Some in Hi as [Hi | (_ & Hi)];
        [|apply list_lookup_singleton_Some in Hi as (_ & <-); discriminate].
      apply lookup_app_Some in Hj as [Hj | (_ & Hj)];
        [|apply list_lookup_singleton_Some in Hj as (_ & <-); discriminate].
      eauto.
  - (* a goroutine steps *)
    destruct (threads sys !! t) as [th|] eqn:Ht; [|repeat split; assumption].
    pose proof (Hok t th Ht) as Hth. unfold thread_ok in Hth.
    unfold step_thread.
    destruct (at_pc th) eqn:Hpc; rewrite ?Nat.add_0_r.
    + (* the method test *)
      destruct (decide (Method (req th) ≠ MethodGet)) as [Hne|Hget]; cbn;
        rewrite ?Nat.add_0_r.
      * split; [|split; [builds_goal Hb|]].
        -- intros i thi Hi.
           apply list_lookup_insert_Some in Hi as [(-> & <- & _) | (_ & Hi)];
             [|eauto].
           unfold thread_ok. cbn. intros Hg. contradiction.
        -- apply one_builder_insert; [exact Hone | cbn; discriminate].
      * split; [|split; [builds_goal Hb|]].
        -- intros i thi Hi.
           apply list_lookup_insert_Some in Hi as [(-> & <- & _) | (_ & Hi)];
             [|eauto].
           unfold thread_ok. cbn. exact Hth.
        -- apply one_builder_insert; [exact Hone | cbn; discriminate].
    + (* the call of once.Do *)
      destruct (once (srv sys)) eqn:Ho; cbn; rewrite ?Nat.add_0_r.
      * (* first caller: it will build *)
        split; [|split; [builds_goal Hb|]].
        -- intros i thi Hi.
           apply list_lookup_insert_Some in Hi as [(-> & <- & _) | (_ & Hi)].
           ++ unfold thread_ok. cbn. split; [exact Hth | reflexivity].
           ++ pose proof (Hok i thi Hi) as Hi'. unfold thread_ok in *. cbn.
              destruct (at_pc thi); try exact Hi'.
              ** destruct Hi' as [_ Hc]. rewrite Ho in Hc. discriminate.
              ** destruct Hi' as [_ Hc]. rewrite Ho in Hc. discriminate.
              ** intros Hg. destruct (Hi' Hg) as [Hc _].
                 rewrite Ho in Hc. discriminate.
        -- intros i j thi thj Hi Hj Hbi Hbj.
           apply list_lookup_insert_Some in Hi as [(-> & _ & _) | (_ & Hi)];
           apply list_lookup_insert_Some in Hj as [(-> & _ & _) | (_ & Hj)];
             try reflexivity; exfalso.
           ++ pose proof (Hok j thj Hj) as Hj'. unfold thread_ok in Hj'.
              rewrite Hbj in Hj'. destruct Hj' as [_ Hc].
              rewrite Ho in Hc. discriminate.
           ++ pose proof (Hok i thi Hi) as Hi'. unfold thread_ok in Hi'.
              rewrite Hbi in Hi'. destruct Hi' as [_ Hc].
              rewrite Ho in Hc. discriminate.
           ++ pose proof (Hok i thi Hi) as Hi'. unfold thread_ok in Hi'.
              rewrite Hbi in Hi'. destruct Hi' as [_ Hc].
              rewrite Ho in Hc. discriminate.
      * (* another caller is building: wait *)
        rewrite list_insert_id by exact Ht.
        unfold inv. cbn. rewrite Ho. split; [|split]; assumption.
      * (* the document is built *)
        split; [|split; [builds_goal Hb|]].
        -- intros i thi Hi.
           apply list_lookup_insert_Some in Hi as [(-> & <- & _) | (_ & Hi)];
             [|eauto].
           unfold thread_ok. cbn. split; [exact Hth | exact Ho].
        -- apply one_builder_insert; [exact Hone | cbn; discriminate].
    + (* the build *)
      destruct Hth as [Hw Ho]. cbn.
      split; [|split; [builds_goal Hb|]].
      * intros i thi Hi.
        apply list_lookup_insert_Some in Hi as [(-> & <- & _) | (Hne & Hi)].
        -- unfold thread_ok. cbn. split; [exact Hw | reflexivity].
        -- pose proof (Hok i thi Hi) as Hi'. unfold thread_ok in *. cbn.
           destruct (at_pc thi) eqn:Hpi; try exact Hi'.
           ++ exfalso. apply Hne. eapply Hone; eauto.
           ++ destruct Hi' as [_ Hc]. rewrite Ho in Hc. discriminate.
           ++ intros Hg. destruct (Hi' Hg) as [Hc _].
              rewrite Ho in Hc. discriminate.
      * apply one_builder_insert; [exact Hone | cbn; discriminate].
    + (* the headers and the write *)
      destruct Hth as [Hw Ho]. cbn. rewrite ?Nat.add_0_r.
      split; [|split; [builds_goal Hb|]].
      * intros i thi Hi.
        apply list_lookup_insert_Some in Hi as [(-> & <- & _) | (_ & Hi)];
          [|eauto].
        unfold thread_ok. cbn. intros _. split; [exact Ho|].
        destruct (respondConfig_run (srv sys) (st th)) as (s' & Hrun & Hws & _).
        rewrite Hrun. cbn. rewrite Hws, Hw. reflexivity.
      * apply one_builder_insert; [exact Hone | cbn; discriminate].
    + (* finished *)
      cbn. rewrite ?Nat.add_0_r, list_insert_id by exact Ht.
      unfold inv. cbn. split; [|split]; assumption.
  - (* the configuration is assigned *)
    split; [|split; [exact Hb | exact Hone]].
    intros i th Hi. eapply thread_ok_ext; [| |eauto]; reflexivity.
Qed.

Lemma inv_run (evs : list event) (sys : system) : inv sys -> inv (run sys evs).
Proof.
  revert sys. induction evs as [|ev evs IH]; intros sys Hinv; cbn;
    [assumption|].
  apply IH. apply inv_step. exact Hinv.
Qed.

(** Once the document is built, no event rebuilds or changes it. *)
Lemma done_step (sys : system) (ev : event) :
  inv sys -> once (srv sys) = OnceDone ->
  once (srv (step sys ev)) = OnceDone
  ∧ generatedConfig (srv (step sys ev)) = generatedConfig (srv sys)
  ∧ builds (step sys ev) = builds sys.
Proof.
  intros (Hok & _ & _) Ho. destruct ev as [r tr | t | c]; cbn;
    [repeat split; assumption | | repeat split; assumption].
  destruct (threads sys !! t) as [th|] eqn:Ht; [|repeat split; assumption].
  pose proof (Hok t th Ht) as Hth. unfold thread_ok in Hth.
  unfold step_thread.
  destruct (at_pc th).
  - destruct (decide (Method (req th) ≠ MethodGet)); cbn;
      repeat split; first [assumption | lia].
  - rewrite Ho. cbn. repeat split; first [assumption | lia].
  - destruct Hth as [_ Hc]. rewrite Ho in Hc. discriminate.
  - cbn. repeat split; first [assumption | lia].
  - cbn. repeat split; first [assumption | lia].
Qed.

Lemma done_run (evs : list event) (sys : system) :
  inv sys -> once (srv sys) = OnceDone ->
  once (srv (run sys evs)) = OnceDone
  ∧ generatedConfig (srv (run sys evs)) = generatedConfig (srv sys)
  ∧ builds (run sys evs) = builds sys.
Proof.
  revert sys. induction evs as [|ev evs IH]; intros sys Hinv Ho;
    [cbn; repeat split; assumption|].
  change (run sys (ev :: evs)) with (run (step sys ev) evs).
  destruct (done_step sys ev Hinv Ho) as (Ho' & Hg & Hb).
  destruct (IH (step sys ev) (inv_step sys ev Hinv) Ho') as (Ho'' & Hg' & Hb').
  split; [exact Ho''|].
  split; [rewrite Hg'; exact Hg | rewrite Hb'; exact Hb].
Qed.

(** The machine and [ConfigHandler] agree: a request served alone, step by
    step, leaves the server and its response as the handler does. *)
Lemma machine_agrees_with_handler (m : Server) (r : Request)
    (tr : list (option error)) :
  once m ≠ OnceRunning ->
  let s0 := {| mem := ∅; w := newResponse tr; logs := []; pC := [] |} in
  let sys := run (boot m) [Arrive r tr; Step 0; Step 0; Step 0; Step 0] in
  ∃ m' s', ConfigHandler json_MarshalIndent m r s0 = Returned m' s'
    ∧ srv sys = m'
    ∧ threads sys = [{| req := r; at_pc := Finished; st := s' |}].
Proof.
  intros Hrun s0 sys. subst s0 sys. unfold ConfigHandler, once_Do.
  cbn -[respondConfig]. unfold step_thread. cbn -[respondConfig].
  destruct (decide (Method r ≠ MethodGet)) as [Hne|Hget];
    cbn -[respondConfig].
  - eexists _, _. repeat split.
  - destruct (once m) eqn:Ho; [|contradiction|]; cbn -[respondConfig].
    + match goal with |- context [respondConfig ?m1 ?s1] =>
        destruct (respondConfig_run m1 s1) as (s' & Hs' & _)
      end.
      unfold mbind, M_bind, mret, M_ret.
      unfold generateConfig, set_once, set_generatedConfig, configDocument,
        generateSmallDownloadURL, generateLargeDownloadURL,
        generateUploadURL in *.
      cbn -[respondConfig] in *. rewrite Hs'. cbn.
      eexists _, _. repeat split.
    + rewrite ?Ho. cbn -[respondConfig].
      match goal with |- context [respondConfig ?m1 ?s1] =>
        destruct (respondConfig_run m1 s1) as (s' & Hs' & _)
      end.
      unfold mbind, M_bind, mret, M_ret. rewrite Hs'. cbn.
      eexists _, _. repeat split.
Qed.

End Once.

(** C5. Starting from a [Server] whose [once] has not been used, whatever
    requests arrive, however their goroutines interleave and whenever the
    configuration fields are assigned: [generateConfig] runs at most once;
    every finished GET request has written exactly the cached document, the
    same bytes for all of them; and once the document is built, nothing
    that happens later (new requests, assignments to the scheme, host and
    port or prefix) rebuilds it or changes the bytes that are served. *)
Theorem discovery_document_built_once `{Syscall}
    (json_MarshalIndent : configResp -> list byte)
    (m : Server) (evs : list event) :
  once m = OnceIdle ->
  let sys := run json_MarshalIndent (boot m) evs in
  (builds sys <= 1)%nat
  ∧ (∀ t th, threads sys !! t = Some th ->
       at_pc th = Finished -> Method (req th) = MethodGet ->
       writes (w (st th)) = [generatedConfig (srv sys)])
  ∧ (once (srv sys) = OnceDone ->
     ∀ evs',
       let sys' := run json_MarshalIndent sys evs' in
       builds sys' = builds sys
       ∧ generatedConfig (srv sys') = generatedConfig (srv sys)
       ∧ ∀ t th, threads sys' !! t = Some th ->
           at_pc th = Finished -> Method (req th) = MethodGet ->
           writes (w (st th)) = [generatedConfig (srv sys)]).
Proof.
  intros Hm sys.
  assert (Hinv : inv sys) by (apply inv_run, inv_boot; exact Hm).
  assert (Hserved : ∀ sys0, inv sys0 -> ∀ t th,
            threads sys0 !! t = Some th ->
            at_pc th = Finished -> Method (req th) = MethodGet ->
            writes (w (st th)) = [generatedConfig (srv sys0)]).
  { intros sys0 (Hok & _ & _) t th Ht Hpc Hg.
    pose proof (Hok t th Ht) as Hth. unfold thread_ok in Hth.
    rewrite Hpc in Hth. apply Hth. exact Hg. }
  split.
  { destruct Hinv as (_ & Hb & _). rewrite Hb.
    destruct (once (srv sys)); lia. }
  split; [exact (Hserved sys Hinv)|].
  intros Ho evs' sys'.
  destruct (done_run json_MarshalIndent evs' sys Hinv Ho) as (_ & Hg & Hb).
  split; [exact Hb|]. split; [exact Hg|].
  intros t th Ht Hpc Hget. fold sys' in Hg. rewrite <- Hg.
  exact (Hserved sys' (inv_run json_MarshalIndent evs' sys Hinv)
           t th Ht Hpc Hget).
Qed.

Lemma discovery_document_built_once_witness :
  let get := {| Method := "GET"; Body := noBody |} in
  let c := {| PublicPort := 80; PublicHostPort := "other.example.org:80";
              ContextPath := "/v2"; Scheme := "http";
              EnableCORS := true; EnableH3AltSvc := false;
              BytesServed := 0; BytesReceived := 0;
              generatedConfig := []; once := OnceIdle |} in
  let evs := [Arrive get []; Arrive get []; Step 0; Step 1; Step 0; Step 1;
              Step 1; Step 0; Reconfigure c; Step 1; Step 0; Step 1] in
  once mW = OnceIdle ∧
  let sys := @run linesW linux (boot mW) evs in
  (builds sys <= 1)%nat
  ∧ (∀ t th, threads sys !! t = Some th ->
       at_pc th = Finished -> Method (req th) = MethodGet ->
       writes (w (st th)) = [generatedConfig (srv sys)])
  ∧ (once (srv sys) = OnceDone ->
     ∀ evs',
       let sys' := @run linesW linux sys evs' in
       builds sys' = builds sys
       ∧ generatedConfig (srv sys') = generatedConfig (srv sys)
       ∧ ∀ t th, threads sys' !! t = Some th ->
           at_pc th = Finished -> Method (req th) = MethodGet ->
           writes (w (st th)) = [generatedConfig (srv sys)]).
Proof.
  intros get c evs. split; [reflexivity|].
  apply (@discovery_document_built_once linux linesW mW evs).
  reflexivity.
Defined.

(** That schedule, run: two concurrent first requests, the
    configuration reassigned after the build; one build, and both responses
    carry the document of the configuration the build saw. *)
Example two_first_requests :
  let get := {| Method := "GET"; Body := noBody |} in
  let c := {| PublicPort := 80; PublicHostPort := "other.example.org:80";
              ContextPath := "/v2"; Scheme := "http";
              EnableCORS := true; EnableH3AltSvc := false;
              BytesServed := 0; BytesReceived := 0;
              generatedConfig := []; once := OnceIdle |} in
  let sys := @run linesW linux (boot mW)
               [Arrive get []; Arrive get []; Step 0; Step 1; Step 0; Step 1;
                Step 1; Step 0; Reconfigure c; Step 1; Step 0; Step 1] in
  builds sys = 1%nat
  ∧ Scheme (srv sys) = "http"
  ∧ map (fun th => (at_pc th, writes (w (st th)))) (threads sys)
    = [(Finished, [linesW (configDocument mW)]);
       (Finished, [linesW (configDocument mW)])].
Proof. vm_compute. repeat split. Qed.

End DiscoveryFacts.

(** * Further properties *)

Arguments countedBytes : simpl never.
Lemma countedBytes_snoc evs ev :
  countedBytes (evs ++ [ev]) = countedBytes evs + byteCount ev.
Proof.
  unfold countedBytes. induction evs as [|x evs IH]; cbn; [lia|].
  rewrite IH. lia.
Qed.

(** Induction along the turns of the loop of [chunkedBodyWriter]. *)
Lemma chunk_ind (P : Z -> Prop) :
  P 0 ->
  (∀ n, 0 < n < chunkSize -> P n) ->
  (∀ n, chunkSize <= n -> P (n - chunkSize) -> P n) ->
  ∀ n, 0 <= n -> P n.
Proof.
  intros H0 Hsmall Hstep n Hn.
  assert (Hc : 0 < chunkSize) by (rewrite chunkSize_val; lia).
  remember (Z.to_nat (n / chunkSize)) as k eqn:Hk.
  revert n Hn Hk. induction k as [|k IH]; intros n Hn Hk.
  - destruct (Z_lt_le_dec n chunkSize) as [Hlt|Hge].
    + destruct (decide (n = 0)) as [->|]; [exact H0 | apply Hsmall; lia].
    + assert (1 <= n / chunkSize) by (apply Z.div_le_lower_bound; lia). lia.
  - destruct (Z_lt_le_dec n chunkSize) as [Hlt|Hge].
    + rewrite Z.div_small in Hk by lia. discriminate.
    + apply Hstep; [exact Hge|]. apply IH; [lia|].
      assert (Hq : n / chunkSize = (n - chunkSize) / chunkSize + 1).
      { replace n with ((n - chunkSize) + 1 * chunkSize) at 1 by lia.
        apply Z.div_add. lia. }
      assert (0 <= (n - chunkSize) / chunkSize) by (apply Z.div_pos; lia).
      lia.
Qed.

Lemma chunkedLoop_trace (h : handlers) (l : loc) (n : Z) :
  BytesServed h = Some l -> 0 <= n ->
  ∀ s, ∃ s',
    chunkedLoop h n s = Returned (performed (transport (w s)) (chunks n)).2 s'
    ∧ transport (w s')
      = drop (length (performed (transport (w s)) (chunks n)).1)
          (transport (w s))
    ∧ countedBytes (pC s')
      = countedBytes (pC s) + total (performed (transport (w s)) (chunks n)).1.
Proof.
  intros Hl Hn. revert n Hn. apply (chunk_ind (fun n => ∀ s, ∃ s', _)).
  - intros s. rewrite chunkedLoop_eq, chunks_zero. cbn.
    exists s. rewrite total_nil. repeat split; lia.
  - intros n Hn s. rewrite chunkedLoop_eq, chunks_small by lia.
    destruct (decide (n > 0)); [|lia].
    destruct (decide (n >= chunkSize)); [lia|].
    rewrite Hl. run_step.
    destruct (transport (w s)) as [|[e|] tr']; cbn.
    all: eexists; (split; [reflexivity|]); cbn.
    all: rewrite ?countedBytes_snoc, total_cons, total_nil, len_slice_to by lia.
    all: cbn; split; first [reflexivity | lia].
  - intros n Hge IH s. rewrite chunkedLoop_eq, chunks_step by lia.
    assert (Hc : 0 < chunkSize) by (rewrite chunkSize_val; lia).
    destruct (decide (n > 0)); [|lia].
    destruct (decide (n >= chunkSize)); [|lia].
    rewrite Hl. run_step.
    destruct (transport (w s)) as [|[e|] tr'] eqn:Htr; cbn.
    + match goal with |- ∃ s', chunkedLoop h _ ?s1 = _ ∧ _ =>
        destruct (IH s1) as (s' & Hrun & Ht & Hp)
      end.
      cbn in *. destruct (performed [] (chunks (n - chunkSize))) as [ws r].
      cbn in *. exists s'. split; [exact Hrun|].
      rewrite Ht, Hp, countedBytes_snoc, total_cons, len_buffed. cbn.
      rewrite drop_nil. split; [reflexivity | lia].
    + eexists. split; [reflexivity|]. cbn.
      rewrite !countedBytes_snoc, total_cons, total_nil, len_buffed. cbn.
      rewrite drop_0. split; [reflexivity | lia].
    + match goal with |- ∃ s', chunkedLoop h _ ?s1 = _ ∧ _ =>
        destruct (IH s1) as (s' & Hrun & Ht & Hp)
      end.
      cbn in *. destruct (performed tr' (chunks (n - chunkSize))) as [ws r].
      cbn in *. exists s'. split; [exact Hrun|].
      rewrite Ht, Hp, countedBytes_snoc, total_cons, len_buffed. cbn.
      split; [reflexivity | lia].
Qed.

Lemma chunkedBodyWriter_trace (h : handlers) (l : loc) (N : Z) (s : State) :
  BytesServed h = Some l -> 0 <= N ->
  ∃ s',
    chunkedBodyWriter h N s
      = Returned (performed (transport (w s)) (chunks N)).2 s'
    ∧ transport (w s')
      = drop (length (performed (transport (w s)) (chunks N)).1)
          (transport (w s))
    ∧ countedBytes (pC s')
      = countedBytes (pC s) + total (performed (transport (w s)) (chunks N)).1.
Proof.
  intros Hl HN. with_strategy transparent [chunkedBodyWriter]
    (unfold chunkedBodyWriter). run_step.
  match goal with |- ∃ s', chunkedLoop h N ?s1 = _ ∧ _ =>
    destruct (chunkedLoop_trace h l N Hl HN s1) as (s' & Hrun & Ht & Hp)
  end.
  cbn in *. exists s'. split; [exact Hrun|]. split; [exact Ht|].
  rewrite Hp, countedBytes_snoc. cbn. lia.
Qed.

(** X1. Asked for a length that is zero or negative, [chunkedBodyWriter]
    sends status 200 and returns nil at once: it calls [Write] never, does
    not consume the transport, and touches no counter, so that it returns
    even when the counter pointer is nil. *)
Theorem body_writer_nonpositive_length (h : handlers) (N : Z) (s : State) :
  N <= 0 ->
  ∃ s', chunkedBodyWriter h N s = Returned None s'
    ∧ status (w s') = Some (default 200 (status (w s)))
    ∧ writes (w s') = writes (w s)
    ∧ transport (w s') = transport (w s)
    ∧ mem s' = mem s
    ∧ logs s' = logs s.
Proof.
  intros HN. with_strategy transparent [chunkedBodyWriter]
    (unfold chunkedBodyWriter). run_step.
  rewrite chunkedLoop_eq. destruct (decide (N > 0)); [lia|]. cbn.
  eexists. split; [reflexivity|]. cbn.
  destruct (status (w s)); repeat split.
Qed.

Lemma body_writer_nonpositive_length_witness :
  -5 <= 0 ∧
  let h := {| EnableCORS := false; BytesServed := None;
              BytesReceived := None |} in
  ∃ s', chunkedBodyWriter h (-5) (sW [Some io_EOF]) = Returned None s'
    ∧ status (w s') = Some (default 200 (status (w (sW [Some io_EOF]))))
    ∧ writes (w s') = writes (w (sW [Some io_EOF]))
    ∧ transport (w s') = transport (w (sW [Some io_EOF]))
    ∧ mem s' = mem (sW [Some io_EOF])
    ∧ logs s' = logs (sW [Some io_EOF]).
Proof.
  split; [lia|]. intros h.
  apply (body_writer_nonpositive_length h (-5) (sW [Some io_EOF])). lia.
Defined.

Lemma buffed_filler : Forall (fun b => b = "x"%byte) buffed.
Proof.
  with_strategy transparent [buffed] (unfold buffed).
  apply Forall_replicate. reflexivity.
Qed.

Lemma chunks_filler (n : Z) : 0 <= n -> Forall fillerBlock (chunks n).
Proof.
  intros Hn. unfold chunks.
  assert (Hc : 0 < chunkSize) by (rewrite chunkSize_val; lia).
  pose proof (Z.mod_pos_bound n chunkSize Hc) as Hm.
  apply Forall_app. split.
  - apply Forall_replicate. split; [rewrite len_buffed; lia|].
    exact buffed_filler.
  - destruct (decide (n mod chunkSize = 0)); constructor; [|constructor].
    split; [rewrite len_slice_to; lia|].
    unfold slice_to. apply Forall_take. exact buffed_filler.
Qed.

Lemma performed_Forall (P : list byte -> Prop) tr cs :
  Forall P cs -> Forall P (performed tr cs).1.
Proof.
  revert tr. induction cs as [|c cs IH]; intros tr Hcs; cbn; [constructor|].
  inversion Hcs as [|? ? Hc Hcs']; subst.
  destruct tr as [|[e|] tr'].
  - specialize (IH [] Hcs'). destruct (performed [] cs). cbn in *.
    constructor; assumption.
  - cbn. constructor; [assumption | constructor].
  - specialize (IH tr' Hcs'). destruct (performed tr' cs). cbn in *.
    constructor; assumption.
Qed.

(** X2. Whatever the transport answers, every buffer [chunkedBodyWriter]
    passes to [Write] is not empty, holds at most [chunkSize] bytes, and
    holds the filler byte ['x'] only. *)
Theorem body_writes_are_filler (h : handlers) (l : loc) (N : Z) (s : State) :
  BytesServed h = Some l ->
  0 <= N ->
  ∃ err s' ws,
    chunkedBodyWriter h N s = Returned err s'
    ∧ writes (w s') = writes (w s) ++ ws
    ∧ Forall (fun p => 0 < len p <= chunkSize
                       ∧ Forall (fun b => b = "x"%byte) p) ws.
Proof.
  intros Hl HN.
  destruct (chunkedBodyWriter_run h l N s Hl HN) as (s' & Hrun & Hw & _).
  eexists _, s', _. split; [exact Hrun|]. split; [exact Hw|].
  apply (performed_Forall fillerBlock). apply chunks_filler. exact HN.
Qed.

Lemma body_writes_are_filler_witness :
  BytesServed hW = Some 1%positive ∧ 0 <= 70000 ∧
  ∃ err s' ws,
    chunkedBodyWriter hW 70000 (sW [None; Some (Errno 32)]) = Returned err s'
    ∧ writes (w s') = writes (w (sW [None; Some (Errno 32)])) ++ ws
    ∧ Forall (fun p => 0 < len p <= chunkSize
                       ∧ Forall (fun b => b = "x"%byte) p) ws.
Proof.
  split; [reflexivity|]. split; [lia|].
  apply (body_writes_are_filler hW 1%positive 70000
           (sW [None; Some (Errno 32)])); [reflexivity | lia].
Defined.

Lemma total_take_chunks (k : nat) (N : Z) :
  0 <= N -> Z.of_nat k * chunkSize < N ->
  total (take (S k) (chunks N)) = Z.min ((Z.of_nat k + 1) * chunkSize) N.
Proof.
  assert (Hc : 0 < chunkSize) by (rewrite chunkSize_val; lia).
  revert N. induction k as [|k IH]; intros N HN Hk.
  - destruct (Z_lt_le_dec N chunkSize) as [Hlt|Hge].
    + rewrite chunks_small by lia. cbn [take].
      rewrite total_cons, total_nil, len_slice_to by lia. lia.
    + rewrite chunks_step by lia. cbn [take]. rewrite take_0.
      rewrite total_cons, total_nil, len_buffed. lia.
  - assert (chunkSize <= N) by nia.
    rewrite chunks_step by lia.
    change (take (S (S k)) (buffed :: chunks (N - chunkSize)))
      with (buffed :: take (S k) (chunks (N - chunkSize))).
    rewrite total_cons, len_buffed, IH by nia. nia.
Qed.

(** X3. When the transport accepts [k] writes and fails the next one with
    [e], a write the response still has to make, [chunkedBodyWriter] returns
    [e] after exactly [k + 1] calls of [Write], the first [k + 1] of the
    response: it does not retry and calls [Write] no more (the rest of the
    transport's answers is left unused). The counter has then advanced by
    the smaller of [(k + 1) * chunkSize] and [N]. *)
Theorem body_writer_stops_at_failure (h : handlers) (l : loc) (N : Z)
    (s : State) (k : nat) (e : error) (rest : list (option error)) :
  BytesServed h = Some l ->
  0 <= N < 2 ^ 63 ->
  transport (w s) = replicate k None ++ Some e :: rest ->
  Z.of_nat k * chunkSize < N ->
  ∃ s', chunkedBodyWriter h N s = Returned (Some e) s'
    ∧ writes (w s') = writes (w s) ++ take (S k) (chunks N)
    ∧ transport (w s') = rest
    ∧ advance (load (mem s) l) (load (mem s') l)
      = Z.min ((Z.of_nat k + 1) * chunkSize) N.
Proof.
  intros Hl HN Htr Hk.
  assert (Hlen : (k < length (chunks N))%nat)
    by (apply length_chunks; lia).
  destruct (chunkedBodyWriter_run h l N s Hl ltac:(lia))
    as (s' & Hrun & Hw & Ha & _).
  destruct (chunkedBodyWriter_trace h l N s Hl ltac:(lia))
    as (s2 & Hrun2 & Ht & _).
  rewrite Hrun in Hrun2. injection Hrun2 as <-.
  rewrite Htr, performed_failure in * by exact Hlen. cbn [fst snd] in *.
  exists s'. split; [exact Hrun|]. split; [exact Hw|]. split.
  - rewrite Ht, length_take, Nat.min_l by lia.
    rewrite (cons_middle (Some e)), app_assoc.
    rewrite drop_app_length'; [reflexivity|].
    rewrite length_app, length_replicate. cbn. lia.
  - rewrite Ha, total_take_chunks by lia. apply uint64_small.
    assert (0 < chunkSize) by (rewrite chunkSize_val; lia). lia.
Qed.

Lemma body_writer_stops_at_failure_witness :
  let tr := [None; Some (Errno 104); None] in
  BytesServed hW = Some 1%positive ∧ 0 <= 200000 < 2 ^ 63 ∧
  transport (w (sW tr)) = replicate 1 None ++ Some (Errno 104) :: [None] ∧
  Z.of_nat 1 * chunkSize < 200000 ∧
  ∃ s', chunkedBodyWriter hW 200000 (sW tr) = Returned (Some (Errno 104)) s'
    ∧ writes (w s') = writes (w (sW tr)) ++ take 2 (chunks 200000)
    ∧ transport (w s') = [None]
    ∧ advance (load (mem (sW tr)) 1%positive) (load (mem s') 1%positive)
      = Z.min ((Z.of_nat 1 + 1) * chunkSize) 200000.
Proof.
  intros tr. split; [reflexivity|]. split; [lia|]. split; [reflexivity|].
  split; [unfold chunkSize; lia|].
  apply (body_writer_stops_at_failure hW 1%positive 200000 (sW tr) 1%nat
           (Errno 104) [None]);
    [reflexivity | lia | reflexivity | unfold chunkSize; lia].
Defined.

(** X4. The byte counts [chunkedBodyWriter] reports to the counter vector
    (the amounts added under the labels [chunkSize] and [n]) add up, over a
    run, to exactly the advance of the served counter, whatever the
    transport answers. *)
Theorem metrics_match_counter (h : handlers) (l : loc) (N : Z) (s : State) :
  BytesServed h = Some l ->
  0 <= N < 2 ^ 63 ->
  ∃ err s',
    chunkedBodyWriter h N s = Returned err s'
    ∧ countedBytes (pC s') - countedBytes (pC s)
      = advance (load (mem s) l) (load (mem s') l).
Proof.
  intros Hl HN.
  destruct (chunkedBodyWriter_run h l N s Hl ltac:(lia))
    as (s' & Hrun & _ & Ha & _).
  destruct (chunkedBodyWriter_trace h l N s Hl ltac:(lia))
    as (s2 & Hrun2 & _ & Hp).
  rewrite Hrun in Hrun2. injection Hrun2 as <-.
  pose proof (performed_total (transport (w s)) (chunks N)) as Ht.
  rewrite total_chunks in Ht by lia.
  eexists _, s'. split; [exact Hrun|].
  rewrite Ha, Hp, uint64_small by lia. lia.
Qed.

Lemma metrics_match_counter_witness :
  BytesServed hW = Some 1%positive ∧ 0 <= 200000 < 2 ^ 63 ∧
  ∃ err s',
    chunkedBodyWriter hW 200000 (sW [None; Some (Errno 104)]) = Returned err s'
    ∧ countedBytes (pC s') - countedBytes (pC (sW [None; Some (Errno 104)]))
      = advance (load (mem (sW [None; Some (Errno 104)])) 1%positive)
          (load (mem s') 1%positive).
Proof.
  split; [reflexivity|]. split; [lia|].
  apply (metrics_match_counter hW 1%positive 200000
           (sW [None; Some (Errno 104)])); [reflexivity | lia].
Defined.

Section DownloadFacts.
Context `{Syscall}.

Lemma downloadHeader_lookup (cors : bool) (N : Z) (hd : gmap string string) :
  downloadHeader cors N hd !! "Content-Length" = Some (FormatInt N)
  ∧ downloadHeader cors N hd !! "Content-Type"
    = Some "application/octet-stream"
  ∧ downloadHeader cors N hd !! "Access-Control-Allow-Origin"
    = (if cors then Some "*" else hd !! "Access-Control-Allow-Origin")
  ∧ downloadHeader cors N hd !! "Access-Control-Allow-Headers"
    = (if cors then Some "*" else hd !! "Access-Control-Allow-Headers").
Proof.
  unfold downloadHeader. destruct cors;
    repeat split;
    repeat first [ rewrite lookup_insert_eq
                 | rewrite lookup_insert_ne by discriminate ];
    reflexivity.
Qed.

Lemma performed_all_accepted (tr : list (option error))
    (cs : list (list byte)) :
  Forall (fun a => a = None) tr ->
  (performed tr cs).1 = cs ∧ (performed tr cs).2 = None.
Proof.
  intros Htr. rewrite performed_healthy by (apply Forall_take; exact Htr).
  split; reflexivity.
Qed.

(** X5. On a transport that accepts every write, a GET to [/small] and to
    [/large] is answered with status 200, and the [Content-Length] header is
    the decimal text of the number of bytes passed to [Write]; nothing is
    logged. *)
Theorem content_length_matches_body (h : handlers) (l : loc) (r : Request)
    (s : State) (tr : list (option error)) :
  BytesServed h = Some l ->
  Method r = MethodGet ->
  w s = newResponse tr ->
  Forall (fun a => a = None) tr ->
  (∃ s', smallHandler h r s = Returned tt s'
     ∧ status (w s') = Some StatusOK
     ∧ Header (w s') !! "Content-Length"
       = Some (FormatInt (total (writes (w s'))))
     ∧ logs s' = logs s)
  ∧ (∃ s', largeHandler h r s = Returned tt s'
     ∧ status (w s') = Some StatusOK
     ∧ Header (w s') !! "Content-Length"
       = Some (FormatInt (total (writes (w s'))))
     ∧ logs s' = logs s).
Proof.
  intros Hl Hm Hw Htr.
  assert (Ht : transport (w s) = tr) by (rewrite Hw; reflexivity).
  assert (Hws : writes (w s) = []) by (rewrite Hw; reflexivity).
  assert (Hss : status (w s) = None) by (rewrite Hw; reflexivity).
  split.
  - destruct (smallHandler_run h l r s Hl (or_introl Hm))
      as (s' & Hrun & Hwr & _ & _ & Hlg & Hh & Hst).
    rewrite Ht in Hwr, Hlg.
    destruct (performed_all_accepted tr (chunks smallContentLength) Htr)
      as [H1 H2].
    rewrite H1, Hws, app_nil_l in Hwr. rewrite H2 in Hlg. rewrite Hss in Hst.
    exists s'. split; [exact Hrun|]. split; [exact Hst|].
    rewrite Hwr, Hh, total_chunks by (unfold smallContentLength; lia).
    split; [apply downloadHeader_lookup|].
    rewrite Hlg. apply app_nil_r.
  - destruct (largeHandler_GET h l r s Hl Hm)
      as (s' & Hrun & Hwr & _ & _ & Hlg & Hh & Hst).
    rewrite Ht in Hwr, Hlg.
    destruct (performed_all_accepted tr (chunks largeContentLength) Htr)
      as [H1 H2].
    rewrite H1, Hws, app_nil_l in Hwr. rewrite H2 in Hlg. rewrite Hss in Hst.
    exists s'. split; [exact Hrun|]. split; [exact Hst|].
    rewrite Hwr, Hh, total_chunks by (unfold largeContentLength; lia).
    split; [apply downloadHeader_lookup|].
    rewrite Hlg. apply app_nil_r.
Qed.

End DownloadFacts.

Lemma content_length_matches_body_witness :
  let r := {| Method := "GET"; Body := noBody |} in
  BytesServed hW = Some 1%positive ∧ Method r = MethodGet ∧
  w (sW [None; None]) = newResponse [None; None] ∧
  Forall (fun a : option error => a = None) [None; None] ∧
  (∃ s', @smallHandler linux hW r (sW [None; None]) = Returned tt s'
     ∧ status (w s') = Some StatusOK
     ∧ Header (w s') !! "Content-Length"
       = Some (FormatInt (total (writes (w s'))))
     ∧ logs s' = logs (sW [None; None]))
  ∧ (∃ s', @largeHandler linux hW r (sW [None; None]) = Returned tt s'
     ∧ status (w s') = Some StatusOK
     ∧ Header (w s') !! "Content-Length"
       = Some (FormatInt (total (writes (w s'))))
     ∧ logs s' = logs (sW [None; None])).
Proof.
  intros r. split; [reflexivity|]. split; [reflexivity|].
  split; [reflexivity|].
  assert (Hf : Forall (fun a : option error => a = None) [None; None])
    by (repeat constructor).
  split; [exact Hf|].
  apply (@content_length_matches_body linux hW 1%positive r
           (sW [None; None]) [None; None]);
    [reflexivity | reflexivity | reflexivity | exact Hf].
Defined.

Section Frames.
Context `{Syscall}.

(** [smallHandler] on every method: it returns, touches no cell but the
    served counter, and sets the download headers when it serves. *)
Lemma smallHandler_frame (h : handlers) (l : loc) (r : Request) (s : State) :
  BytesServed h = Some l ->
  ∃ s', smallHandler h r s = Returned tt s'
    ∧ (∀ l', l' ≠ l -> mem s' !! l' = mem s !! l')
    ∧ Header (w s')
      = if bool_decide (Method r = MethodGet ∨ Method r = MethodHead)
        then downloadHeader (EnableCORS h) smallContentLength (Header (w s))
        else Header (w s).
Proof.
  intros Hl.
  destruct (decide (Method r ≠ MethodGet ∧ Method r ≠ MethodHead))
    as [[H1 H2]|Hm].
  - unfold smallHandler.
    destruct (decide (Method r ≠ MethodGet ∧ Method r ≠ MethodHead))
      as [_|Hn]; [|exfalso; apply Hn; split; assumption].
    run_step. eexists. split; [reflexivity|]. cbn.
    split; [reflexivity|].
    rewrite bool_decide_eq_false_2; [reflexivity|].
    intros [?|?]; contradiction.
  - apply method_cases in Hm.
    destruct (smallHandler_run h l r s Hl Hm)
      as (s' & Hrun & _ & _ & Hmem & _ & Hh & _).
    exists s'. split; [exact Hrun|]. split; [exact Hmem|].
    rewrite bool_decide_eq_true_2 by exact Hm. exact Hh.
Qed.

Lemma largeHandler_frame (h : handlers) (l : loc) (r : Request) (s : State) :
  BytesServed h = Some l ->
  ∃ s', largeHandler h r s = Returned tt s'
    ∧ (∀ l', l' ≠ l -> mem s' !! l' = mem s !! l')
    ∧ Header (w s')
      = if bool_decide (Method r = MethodGet ∨ Method r = MethodHead)
        then downloadHeader (EnableCORS h) largeContentLength (Header (w s))
        else Header (w s).
Proof.
  intros Hl.
  destruct (decide (Method r = MethodGet)) as [Hg|Hg].
  - destruct (largeHandler_GET h l r s Hl Hg)
      as (s' & Hrun & _ & _ & Hmem & _ & Hh & _).
    exists s'. split; [exact Hrun|]. split; [exact Hmem|].
    rewrite bool_decide_eq_true_2 by (left; exact Hg). exact Hh.
  - unfold largeHandler, setCors, downloadHeader.
    destruct (decide (Method r ≠ MethodGet ∧ Method r ≠ MethodHead))
      as [[_ Hh]|Hm].
    + run_step. eexists. split; [reflexivity|]. cbn.
      split; [reflexivity|].
      rewrite bool_decide_eq_false_2; [reflexivity|].
      intros [?|?]; contradiction.
    + destruct (decide (Method r ≠ MethodGet)); [|contradiction].
      rewrite bool_decide_eq_true_2 by (apply method_cases; exact Hm).
      run_step. destruct (EnableCORS h); cbn;
        eexists; (split; [reflexivity|]); cbn; split; reflexivity.
Qed.

Lemma load_frame (m m' : gmap loc Z) (l : loc) :
  (∀ l', l' ≠ l -> m' !! l' = m !! l') ->
  ∀ l', l' ≠ l -> load m' l' = load m l'.
Proof. intros Hm l' Hne. unfold load. rewrite Hm by exact Hne. reflexivity. Qed.

(** X6. A request to a download handler, whatever its method, changes no
    cell of the store other than the served counter; a request to the
    upload handler changes none other than the received counter. With two
    different cells, downloads never move the received count and uploads
    never move the served count. *)
Theorem handlers_touch_only_their_counter (h : handlers) (ls lr : loc)
    (r : Request) (s : State) :
  BytesServed h = Some ls ->
  BytesReceived h = Some lr ->
  (∃ s', smallHandler h r s = Returned tt s'
     ∧ ∀ l', l' ≠ ls -> load (mem s') l' = load (mem s) l')
  ∧ (∃ s', largeHandler h r s = Returned tt s'
     ∧ ∀ l', l' ≠ ls -> load (mem s') l' = load (mem s) l')
  ∧ (∃ s', slurpHandler h r s = Returned tt s'
     ∧ ∀ l', l' ≠ lr -> load (mem s') l' = load (mem s) l').
Proof.
  intros Hs Hr. split; [|split].
  - destruct (smallHandler_frame h ls r s Hs) as (s' & Hrun & Hm & _).
    exists s'. split; [exact Hrun | apply load_frame; exact Hm].
  - destruct (largeHandler_frame h ls r s Hs) as (s' & Hrun & Hm & _).
    exists s'. split; [exact Hrun | apply load_frame; exact Hm].
  - destruct (slurpHandler_run h lr r s Hr) as (s' & Hrun & _ & Hm & _).
    exists s'. split; [exact Hrun | apply load_frame; exact Hm].
Qed.

(** X7. A download handler sets the two CORS headers, both to ["*"], exactly
    when CORS is enabled and the method is GET or HEAD: a request refused
    with "method not allowed" carries no CORS header even when CORS is
    enabled. *)
Theorem download_cors_headers (h : handlers) (l : loc) (r : Request)
    (s : State) (tr : list (option error)) :
  BytesServed h = Some l ->
  w s = newResponse tr ->
  let sent := bool_decide (Method r = MethodGet ∨ Method r = MethodHead)
              && EnableCORS h in
  (∃ s', smallHandler h r s = Returned tt s'
     ∧ Header (w s') !! "Access-Control-Allow-Origin"
       = (if sent then Some "*" else None)
     ∧ Header (w s') !! "Access-Control-Allow-Headers"
       = (if sent then Some "*" else None))
  ∧ (∃ s', largeHandler h r s = Returned tt s'
     ∧ Header (w s') !! "Access-Control-Allow-Origin"
       = (if sent then Some "*" else None)
     ∧ Header (w s') !! "Access-Control-Allow-Headers"
       = (if sent then Some "*" else None)).
Proof.
  intros Hl Hw sent.
  assert (Hh0 : Header (w s) = ∅) by (rewrite Hw; reflexivity).
  split.
  - destruct (smallHandler_frame h l r s Hl) as (s' & Hrun & _ & Hh).
    exists s'. split; [exact Hrun|]. rewrite Hh, Hh0. unfold sent.
    destruct (bool_decide (Method r = MethodGet ∨ Method r = MethodHead));
      cbn [andb].
    + destruct (downloadHeader_lookup (EnableCORS h) smallContentLength ∅)
        as (_ & _ & Ho & Hhd).
      rewrite Ho, Hhd, !lookup_empty. destruct (EnableCORS h); split; reflexivity.
    + rewrite !lookup_empty. split; reflexivity.
  - destruct (largeHandler_frame h l r s Hl) as (s' & Hrun & _ & Hh).
    exists s'. split; [exact Hrun|]. rewrite Hh, Hh0. unfold sent.
    destruct (bool_decide (Method r = MethodGet ∨ Method r = MethodHead));
      cbn [andb].
    + destruct (downloadHeader_lookup (EnableCORS h) largeContentLength ∅)
        as (_ & _ & Ho & Hhd).
      rewrite Ho, Hhd, !lookup_empty. destruct (EnableCORS h); split; reflexivity.
    + rewrite !lookup_empty. split; reflexivity.
Qed.

End Frames.

Lemma handlers_touch_only_their_counter_witness :
  let r := {| Method := "PUT";
              Body := streamed [["a"%byte]] [] (errorString "unexpected EOF") |} in
  BytesServed hW = Some 1%positive ∧ BytesReceived hW = Some 2%positive ∧
  (∃ s', @smallHandler linux hW r (sW []) = Returned tt s'
     ∧ ∀ l', l' ≠ 1%positive -> load (mem s') l' = load (mem (sW [])) l')
  ∧ (∃ s', @largeHandler linux hW r (sW []) = Returned tt s'
     ∧ ∀ l', l' ≠ 1%positive -> load (mem s') l' = load (mem (sW [])) l')
  ∧ (∃ s', @slurpHandler linux hW r (sW []) = Returned tt s'
     ∧ ∀ l', l' ≠ 2%positive -> load (mem s') l' = load (mem (sW [])) l').
Proof.
  intros r. split; [reflexivity|]. split; [reflexivity|].
  apply (@handlers_touch_only_their_counter linux hW 1%positive 2%positive
           r (sW [])); reflexivity.
Defined.

Lemma download_cors_headers_witness :
  let r := {| Method := "HEAD"; Body := noBody |} in
  BytesServed hW = Some 1%positive ∧ w (sW []) = newResponse [] ∧
  let sent := bool_decide (Method r = MethodGet ∨ Method r = MethodHead)
              && EnableCORS hW in
  (∃ s', @smallHandler linux hW r (sW []) = Returned tt s'
     ∧ Header (w s') !! "Access-Control-Allow-Origin"
       = (if sent then Some "*" else None)
     ∧ Header (w s') !! "Access-Control-Allow-Headers"
       = (if sent then Some "*" else None))
  ∧ (∃ s', @largeHandler linux hW r (sW []) = Returned tt s'
     ∧ Header (w s') !! "Access-Control-Allow-Origin"
       = (if sent then Some "*" else None)
     ∧ Header (w s') !! "Access-Control-Allow-Headers"
       = (if sent then Some "*" else None)).
Proof.
  intros r. split; [reflexivity|]. split; [reflexivity|].
  apply (@download_cors_headers linux hW 1%positive r (sW []) []);
    reflexivity.
Defined.

Section UploadFacts.
Context `{Syscall}.

Lemma readResult_other (e : error) : e ≠ io_EOF -> readResult e = Some e.
Proof. destruct e; [contradiction | reflexivity..]. Qed.

(** The headers of [slurpHandler]'s response; on a read error [http.Error]
    replaces the content type and adds one header. *)
Lemma slurpHandler_header (h : handlers) (l : loc) (r : Request) (s : State) :
  BytesReceived h = Some l ->
  ∃ s', slurpHandler h r s = Returned tt s'
    ∧ Header (w s')
      = match readResult (lastErr (Body r)) with
        | None => slurpHeader (EnableCORS h) (Header (w s))
        | Some _ =>
            <["X-Content-Type-Options" := "nosniff"]>
              (<["Content-Type" := "text/plain; charset=utf-8"]>
                 (slurpHeader (EnableCORS h) (Header (w s))))
        end.
Proof.
  intros Hl.
  unfold slurpHandler, setNoPublicCache, setCors, slurpHeader.
  run_step.
  destruct (EnableCORS h); cbn -[io_Copy];
    match goal with |- context [io_Copy ?cb ?src ?s1] =>
      destruct (io_Copy_run cb l src s1 Hl)
        as (n' & s' & Hrun & _ & _ & Hw & _)
    end; rewrite Hrun; cbn in *;
    destruct (readResult (lastErr (Body r))) as [e|]; unfold http_Error;
    run_step; eexists; (split; [reflexivity|]); cbn; rewrite Hw; reflexivity.
Qed.

Lemma slurpHeader_lookup (cors : bool) :
  slurpHeader cors ∅ !! "Cache-Control"
    = Some "no-store, must-revalidate, private, max-age=0"
  ∧ slurpHeader cors ∅ !! "Proxy-Cache-Control"
    = Some "max-age=604800, public"
  ∧ slurpHeader cors ∅ !! "Content-Type" = Some "application/octet-stream"
  ∧ slurpHeader cors ∅ !! "Access-Control-Allow-Origin"
    = (if cors then Some "*" else None)
  ∧ slurpHeader cors ∅ !! "Access-Control-Allow-Headers"
    = (if cors then Some "*" else None).
Proof.
  unfold slurpHeader. destruct cors;
    repeat split;
    repeat first [ rewrite lookup_insert_eq
                 | rewrite lookup_insert_ne by discriminate
                 | rewrite lookup_empty ];
    reflexivity.
Qed.

(** X8. When reading the body of an upload ends with an error other than
    [io.EOF], [slurpHandler] answers with status 400, the text of the error
    and a newline as the body, content type [text/plain; charset=utf-8] and
    [X-Content-Type-Options: nosniff]; the bytes read up to there, those of
    the failing read included, stay counted, and nothing is logged. *)
Theorem upload_read_error_is_bad_request (h : handlers) (l : loc)
    (r : Request) (s : State) (tr : list (option error)) :
  BytesReceived h = Some l ->
  w s = newResponse tr ->
  lastErr (Body r) ≠ io_EOF ->
  len (bodyBytes (Body r)) < 2 ^ 64 ->
  ∃ s', slurpHandler h r s = Returned tt s'
    ∧ status (w s') = Some StatusBadRequest
    ∧ writes (w s')
      = [list_byte_of_string
           (Error (lastErr (Body r)) +:+ String "010"%char EmptyString)]
    ∧ Header (w s') !! "Content-Type" = Some "text/plain; charset=utf-8"
    ∧ Header (w s') !! "X-Content-Type-Options" = Some "nosniff"
    ∧ advance (load (mem s) l) (load (mem s') l) = len (bodyBytes (Body r))
    ∧ logs s' = logs s.
Proof.
  intros Hl Hw Herr HK.
  destruct (slurpHandler_run h l r s Hl) as (s' & Hrun & Ha & _ & Hlg & Hres).
  destruct (slurpHandler_header h l r s Hl) as (s2 & Hrun2 & Hh).
  rewrite Hrun in Hrun2. injection Hrun2 as <-.
  rewrite readResult_other in Hres, Hh by exact Herr.
  destruct Hres as [Hst Hwr].
  assert (Hws : writes (w s) = []) by (rewrite Hw; reflexivity).
  assert (Hss : status (w s) = None) by (rewrite Hw; reflexivity).
  rewrite Hws in Hwr. rewrite Hss in Hst.
  exists s'. split; [exact Hrun|]. split; [exact Hst|]. split; [exact Hwr|].
  rewrite Hh. split; [rewrite lookup_insert_ne by discriminate;
                      apply lookup_insert_eq|].
  split; [apply lookup_insert_eq|].
  split; [|exact Hlg].
  rewrite Ha, total_reads. apply uint64_small. unfold len in *. lia.
Qed.

(** X9. Every response of [slurpHandler], to an upload that succeeds and
    to one that fails alike, carries the client-side [Cache-Control] and the
    proxy-side [Proxy-Cache-Control] headers, and the two CORS headers
    exactly when CORS is enabled; the content type is
    [application/octet-stream] on success and [http.Error]'s on failure. *)
Theorem upload_response_headers (h : handlers) (l : loc) (r : Request)
    (s : State) (tr : list (option error)) :
  BytesReceived h = Some l ->
  w s = newResponse tr ->
  ∃ s', slurpHandler h r s = Returned tt s'
    ∧ Header (w s') !! "Cache-Control"
      = Some "no-store, must-revalidate, private, max-age=0"
    ∧ Header (w s') !! "Proxy-Cache-Control" = Some "max-age=604800, public"
    ∧ Header (w s') !! "Access-Control-Allow-Origin"
      = (if EnableCORS h then Some "*" else None)
    ∧ Header (w s') !! "Access-Control-Allow-Headers"
      = (if EnableCORS h then Some "*" else None)
    ∧ Header (w s') !! "Content-Type"
      = Some (match lastErr (Body r) with
              | io_EOF => "application/octet-stream"
              | _ => "text/plain; charset=utf-8"
              end).
Proof.
  intros Hl Hw.
  destruct (slurpHandler_header h l r s Hl) as (s' & Hrun & Hh).
  assert (Hh0 : Header (w s) = ∅) by (rewrite Hw; reflexivity).
  rewrite Hh0 in Hh.
  destruct (slurpHeader_lookup (EnableCORS h)) as (H1 & H2 & H3 & H4 & H5).
  exists s'. split; [exact Hrun|]. rewrite Hh.
  destruct (lastErr (Body r)); cbn [readResult];
    repeat split;
    repeat first [ rewrite lookup_insert_eq
                 | rewrite lookup_insert_ne by discriminate ];
    first [assumption | reflexivity].
Qed.

Lemma int64_small (z : Z) : - 2 ^ 63 <= z < 2 ^ 63 -> int64 z = z.
Proof. intros Hz. unfold int64. rewrite Z.mod_small by lia. lia. Qed.

Lemma ReadFrom_loop_count (cb : countingDiscard) (l : loc)
    (rs : list (list byte)) (last : list byte) (err : error) :
  byteCounter cb = Some l ->
  ∀ n s, 0 <= n -> n + total (rs ++ [last]) < 2 ^ 63 ->
  ∃ s', ReadFrom_loop cb rs last err n s
          = Returned (n + total (rs ++ [last]), readResult err) s'
    ∧ w s' = w s ∧ logs s' = logs s.
Proof.
  intros Hl. induction rs as [|block rs IH]; intros n s Hn Hb;
    cbn [ReadFrom_loop app] in *.
  - rewrite total_cons, total_nil in *.
    assert (0 <= len last) by (unfold len; lia).
    rewrite Hl. run_step.
    rewrite (int64_small (len last)), int64_small by lia.
    rewrite Z.add_0_r.
    destruct err; cbn; eexists; (split; [reflexivity|]); split; reflexivity.
  - rewrite total_cons in *.
    assert (0 <= len block) by (unfold len; lia).
    pose proof (total_nonneg (rs ++ [last])).
    rewrite Hl. run_step.
    rewrite (int64_small (len block)), int64_small by lia.
    match goal with |- ∃ s', ReadFrom_loop cb rs last err ?n1 ?s1 = _ ∧ _ =>
      destruct (IH n1 s1) as (s' & Hrun & Hw & Hlg)
    end; [lia | lia |].
    exists s'. rewrite Hrun. split; [f_equal; f_equal; lia|].
    split; assumption.
Qed.

(** X10. [countingDiscard.ReadFrom] returns the number of bytes it read
    (for fewer than 2^63 bytes) and counts exactly that number; it returns
    nil when the reader ended with [io.EOF] and the reader's error
    otherwise, and it writes nothing to the response. *)
Theorem ReadFrom_returns_count (cb : countingDiscard) (l : loc)
    (r : Reader) (s : State) :
  byteCounter cb = Some l ->
  len (bodyBytes r) < 2 ^ 63 ->
  ∃ s', ReadFrom cb r s
          = Returned (len (bodyBytes r), readResult (lastErr r)) s'
    ∧ advance (load (mem s) l) (load (mem s') l) = len (bodyBytes r)
    ∧ w s' = w s.
Proof.
  intros Hl HK. unfold ReadFrom.
  destruct (ReadFrom_loop_count cb l (reads r) (lastRead r) (lastErr r) Hl
              0 s) as (s' & Hrun & Hw & _);
    [lia | rewrite total_reads; lia |].
  destruct (ReadFrom_loop_run cb l (reads r) (lastRead r) (lastErr r) 0 s Hl)
    as (n2 & s2 & Hrun2 & Ha & _).
  rewrite Hrun in Hrun2. injection Hrun2 as _ <-.
  exists s'. rewrite Hrun, total_reads, Z.add_0_l.
  split; [reflexivity|]. split; [|exact Hw].
  rewrite Ha, total_reads. apply uint64_small. unfold len in *. lia.
Qed.

End UploadFacts.

Lemma upload_read_error_is_bad_request_witness :
  let r := {| Method := "POST";
              Body := streamed [["a"%byte; "b"%byte]] ["c"%byte] (errorString "unexpected EOF") |} in
  BytesReceived hW = Some 2%positive ∧ w (sW []) = newResponse [] ∧
  lastErr (Body r) ≠ io_EOF ∧ len (bodyBytes (Body r)) < 2 ^ 64 ∧
  ∃ s', @slurpHandler linux hW r (sW []) = Returned tt s'
    ∧ status (w s') = Some StatusBadRequest
    ∧ writes (w s')
      = [list_byte_of_string
           (@Error linux (lastErr (Body r))
              +:+ String "010"%char EmptyString)]
    ∧ Header (w s') !! "Content-Type" = Some "text/plain; charset=utf-8"
    ∧ Header (w s') !! "X-Content-Type-Options" = Some "nosniff"
    ∧ advance (load (mem (sW [])) 2%positive) (load (mem s') 2%positive)
      = len (bodyBytes (Body r))
    ∧ logs s' = logs (sW []).
Proof.
  intros r. split; [reflexivity|]. split; [reflexivity|].
  split; [discriminate|]. split; [vm_compute; reflexivity|].
  apply (@upload_read_error_is_bad_request linux hW 2%positive r (sW []) []);
    first [reflexivity | discriminate | vm_compute; reflexivity].
Defined.

Lemma upload_response_headers_witness :
  let r := {| Method := "POST";
              Body := streamed [] ["c"%byte] (Errno 104) |} in
  BytesReceived hW = Some 2%positive ∧ w (sW []) = newResponse [] ∧
  ∃ s', @slurpHandler linux hW r (sW []) = Returned tt s'
    ∧ Header (w s') !! "Cache-Control"
      = Some "no-store, must-revalidate, private, max-age=0"
    ∧ Header (w s') !! "Proxy-Cache-Control" = Some "max-age=604800, public"
    ∧ Header (w s') !! "Access-Control-Allow-Origin"
      = (if EnableCORS hW then Some "*" else None)
    ∧ Header (w s') !! "Access-Control-Allow-Headers"
      = (if EnableCORS hW then Some "*" else None)
    ∧ Header (w s') !! "Content-Type"
      = Some (match lastErr (Body r) with
              | io_EOF => "application/octet-stream"
              | _ => "text/plain; charset=utf-8"
              end).
Proof.
  intros r. split; [reflexivity|]. split; [reflexivity|].
  apply (@upload_response_headers linux hW 2%positive r (sW []) []);
    reflexivity.
Defined.

Lemma ReadFrom_returns_count_witness :
  let cb := {| byteCounter := Some 2%positive |} in
  let r := streamed [["a"%byte; "b"%byte]; []] ["c"%byte] io_EOF in
  byteCounter cb = Some 2%positive ∧ len (bodyBytes r) < 2 ^ 63 ∧
  ∃ s', ReadFrom cb r (sW [])
          = Returned (len (bodyBytes r), readResult (lastErr r)) s'
    ∧ advance (load (mem (sW [])) 2%positive) (load (mem s') 2%positive)
      = len (bodyBytes r)
    ∧ w s' = w (sW []).
Proof.
  intros cb r. split; [reflexivity|]. split; [vm_compute; reflexivity|].
  apply (ReadFrom_returns_count cb 2%positive r (sW []));
    [reflexivity | vm_compute; reflexivity].
Defined.

Section ReporterFacts.
Variable fmt_Mbps : Z -> string.

Lemma length_append (a b : string) :
  String.length (a +:+ b) = (String.length a + String.length b)%nat.
Proof.
  induction a as [|c a IH]; [reflexivity|].
  change (S (String.length (a +:+ b))
          = S (String.length a + String.length b)).
  f_equal. exact IH.
Qed.

Lemma highest_step (a x : Z) (xs : list Z) :
  highest a (x :: xs) = highest (if decide (x > a) then x else a) xs.
Proof.
  unfold highest. cbn [foldl]. f_equal. destruct (decide (x > a)); lia.
Qed.

Lemma PrintStats_loop_run (samples : list Discovery.Server) :
  ∀ (a b : Z) (s : State),
  ∃ s', PrintStats_loop fmt_Mbps samples a b s
          = Returned (highest a (map Discovery.BytesServed samples),
                      highest b (map Discovery.BytesReceived samples)) s'
    ∧ (∃ lines, logs s' = logs s ++ lines
         ∧ (length lines <= length samples)%nat
         ∧ (Forall (fun m => Discovery.BytesServed m <= a
                             ∧ Discovery.BytesReceived m <= b) samples ->
            lines = []))
    ∧ mem s' = mem s ∧ w s' = w s ∧ pC s' = pC s.
Proof.
  induction samples as [|m samples IH]; intros a b s; cbn [PrintStats_loop].
  - exists s. split; [reflexivity|]. split; [|repeat split].
    exists []. rewrite app_nil_r. repeat split. cbn. lia.
  - cbn [map]. rewrite !highest_step.
    destruct (decide (Discovery.BytesServed m > a)) as [Hx|Hx];
      destruct (decide (Discovery.BytesReceived m > b)) as [Hy|Hy];
      cbn -[String.length String.append].
    all: match goal with
         | |- context [decide (0 < String.length ?m)%nat] =>
             destruct (decide (0 < String.length m)%nat) as [Hlen|Hlen]
         end.
    all: try (exfalso; apply Hlen; rewrite ?length_append; cbn; lia).
    all: try (exfalso; cbn in Hlen; lia).
    all: run_step.
    all: match goal with
         | |- ∃ s', PrintStats_loop _ _ ?a1 ?b1 ?s1 = _ ∧ _ =>
             destruct (IH a1 b1 s1)
               as (s' & Hrun & (lines & Hlg & Hlen' & Hq) & Hm & Hw & Hp)
         end.
    all: cbn in *; exists s'.
    all: split; [exact Hrun|].
    all: split; [|repeat split; assumption].
    + eexists (_ :: lines). rewrite Hlg, <- app_assoc. cbn.
      split; [reflexivity|]. split; [lia|].
      intros Hf. inversion Hf as [|? ? [? ?] ?]; subst. lia.
    + eexists (_ :: lines). rewrite Hlg, <- app_assoc. cbn.
      split; [reflexivity|]. split; [lia|].
      intros Hf. inversion Hf as [|? ? [? ?] ?]; subst. lia.
    + eexists (_ :: lines). rewrite Hlg, <- app_assoc. cbn.
      split; [reflexivity|]. split; [lia|].
      intros Hf. inversion Hf as [|? ? [? ?] ?]; subst. lia.
    + exists lines. split; [exact Hlg|]. split; [lia|].
      intros Hf. inversion Hf as [|? ? [? ?] Hf']; subst. apply Hq.
      exact Hf'.
Qed.

Lemma PrintStats_loop_app (before after : list Discovery.Server) :
  ∀ (a b : Z) (s : State),
  PrintStats_loop fmt_Mbps (before ++ after) a b s
  = ('(a', b') ← PrintStats_loop fmt_Mbps before a b;
     PrintStats_loop fmt_Mbps after a' b') s.
Proof.
  induction before as [|m before IH]; intros a b s; [reflexivity|].
  cbn [app PrintStats_loop].
  destruct (decide (Discovery.BytesServed m > a));
    destruct (decide (Discovery.BytesReceived m > b));
    cbn -[String.length String.append];
    match goal with
    | |- context [decide (0 < String.length ?m)%nat] =>
        destruct (decide (0 < String.length m)%nat)
    end; run_step; apply IH.
Qed.

(** X15. After any number of samples [PrintStats] holds, for each counter,
    the highest value sampled so far (zero at the start): the values it
    compares with never go down. It has logged at most one line per sample
    and has changed neither a counter nor a response. *)
Theorem reporter_keeps_highest_samples (samples : list Discovery.Server)
    (s : State) :
  ∃ s' lines,
    PrintStats fmt_Mbps samples s
      = Returned (highest 0 (map Discovery.BytesServed samples),
                  highest 0 (map Discovery.BytesReceived samples)) s'
    ∧ logs s' = logs s ++ lines
    ∧ (length lines <= length samples)%nat
    ∧ mem s' = mem s
    ∧ w s' = w s.
Proof.
  unfold PrintStats. run_step.
  match goal with
  | |- ∃ s' lines, PrintStats_loop _ _ _ _ ?s1 = _ ∧ _ =>
      destruct (PrintStats_loop_run samples 0 0 s1)
        as (s' & Hrun & (lines & Hlg & Hlen & _) & Hm & Hw & _)
  end.
  exists s', lines. cbn in *. repeat split; assumption.
Qed.

(** X16. Samples in which neither counter is above the highest value seen
    before add no line to the log and leave [PrintStats]'s last values as
    they are: an idle server is not reported, and neither is a counter that
    reads lower than before. *)
Theorem reporter_logs_only_advances (before after : list Discovery.Server)
    (s : State) :
  Forall (fun m =>
            Discovery.BytesServed m
              <= highest 0 (map Discovery.BytesServed before)
            ∧ Discovery.BytesReceived m
              <= highest 0 (map Discovery.BytesReceived before)) after ->
  ∃ last s1 s2,
    PrintStats fmt_Mbps before s = Returned last s1
    ∧ PrintStats fmt_Mbps (before ++ after) s = Returned last s2
    ∧ logs s2 = logs s1.
Proof.
  intros Hq. unfold PrintStats. run_step.
  match goal with
  | |- ∃ last s1 s2, PrintStats_loop _ _ _ _ ?s0 = _ ∧ _ =>
      destruct (PrintStats_loop_run before 0 0 s0) as (s1 & Hrun1 & _);
      rewrite (PrintStats_loop_app before after 0 0 s0)
  end.
  unfold mbind, M_bind. rewrite Hrun1.
  destruct (PrintStats_loop_run after
              (highest 0 (map Discovery.BytesServed before))
              (highest 0 (map Discovery.BytesReceived before)) s1)
    as (s2 & Hrun2 & (lines & Hlg & _ & Hquiet) & _).
  rewrite Hrun2. rewrite (Hquiet Hq), app_nil_r in Hlg.
  eexists _, s1, s2. split; [reflexivity|]. split; [|exact Hlg].
  f_equal. f_equal.
  - clear -Hq. induction Hq as [|m after [Hm _] _ IH]; [reflexivity|].
    cbn [map]. rewrite highest_step.
    destruct (decide _); [lia | exact IH].
  - clear -Hq. induction Hq as [|m after [_ Hm] _ IH]; [reflexivity|].
    cbn [map]. rewrite highest_step.
    destruct (decide _); [lia | exact IH].
Qed.

End ReporterFacts.

(** X11. For an error that wraps another one, [ignorableError] looks at the
    errno values on the wrapped chain and at the text of the outermost
    error only: a wrapped [EPIPE] or [ECONNRESET] is ignorable under any
    text, while a wrapped ["client disconnected"] is ignorable only if the
    wrapper's own text is exactly that. *)
Theorem ignorable_through_wrapping `{Syscall} (msg : string) (e : error) :
  ignorableError (Some (wrapError msg e)) = true
  <-> unwraps e (Errno EPIPE) ∨ unwraps e (Errno ECONNRESET)
      ∨ msg = "client disconnected".
Proof.
  unfold ignorableError. cbn [errors_Is Error].
  pose proof (errors_Is_unwraps e EPIPE) as Hp.
  pose proof (errors_Is_unwraps e ECONNRESET) as Hr.
  destruct (errors_Is e EPIPE).
  { split; [intros _; left; apply Hp; reflexivity | reflexivity]. }
  destruct (errors_Is e ECONNRESET).
  { split; [intros _; right; left; apply Hr; reflexivity | reflexivity]. }
  destruct (String.eqb msg "client disconnected") eqn:Hs.
  { apply String.eqb_eq in Hs. split; [intros _; right; right; exact Hs
                                      | reflexivity]. }
  apply String.eqb_neq in Hs. split; [discriminate|].
  intros [H1 | [H2 | H3]]; [apply Hp in H1 | apply Hr in H2 | ];
    first [discriminate | contradiction].
Qed.

Module DiscoveryMore.
Import Discovery.

Section Config.
Variable json_MarshalIndent : configResp -> list byte.
Context `{Syscall}.

(** [ConfigHandler] on GET, in full. *)
Lemma ConfigHandler_GET (m : Server) (r : Request) (s : State) :
  Method r = MethodGet ->
  let m' := once_Do (generateConfig json_MarshalIndent) m in
  ∃ s', ConfigHandler json_MarshalIndent m r s = Returned m' s'
    ∧ writes (w s') = writes (w s) ++ [generatedConfig m']
    ∧ status (w s') = Some (default 200 (status (w s)))
    ∧ Header (w s')
      = (if EnableCORS m
         then fun hd => <["Access-Control-Allow-Headers" := "*"]>
                          (<["Access-Control-Allow-Origin" := "*"]> hd)
         else fun hd => hd)
          ((if EnableH3AltSvc m
            then <["Alt-Svc" := altSvc (PublicPort m)]>
            else fun hd => hd)
             (<["Content-Type" := "application/json"]> (Header (w s))))
    ∧ logs s' = logs s ++
        match transport (w s) with
        | Some e :: _ => ["could not write response: " +:+ Error e]
        | _ => []
        end
    ∧ mem s' = mem s.
Proof.
  intros Hm m'. unfold ConfigHandler.
  destruct (decide (Method r ≠ MethodGet)); [contradiction|].
  fold m'.
  assert (Hc : EnableCORS m' = EnableCORS m
               ∧ EnableH3AltSvc m' = EnableH3AltSvc m
               ∧ PublicPort m' = PublicPort m).
  { unfold m', once_Do. destruct (once m); repeat split. }
  destruct Hc as (Hc1 & Hc2 & Hc3).
  unfold respondConfig, setCors, altSvc. rewrite Hc1, Hc2, Hc3. run_step.
  destruct (EnableH3AltSvc m), (EnableCORS m),
    (transport (w s)) as [|[e|] tr], (status (w s)); cbn;
    eexists; (split; [reflexivity|]); cbn; rewrite ?app_nil_r;
    repeat split.
Qed.

(** X12. A GET to the discovery endpoint is answered with status 200 and
    content type [application/json]; the [Alt-Svc] header [h3=":<port>"] is
    present exactly when the alternate transport is advertised, and the CORS
    headers exactly when CORS is enabled, all read from the server's
    fields as they are at this request; when the document is already built
    the body is the cached document and the server is left as it was. *)
Theorem config_headers_follow_configuration (m : Server) (r : Request)
    (s : State) (tr : list (option error)) :
  Method r = MethodGet ->
  w s = newResponse tr ->
  ∃ m' s', ConfigHandler json_MarshalIndent m r s = Returned m' s'
    ∧ status (w s') = Some StatusOK
    ∧ Header (w s') !! "Content-Type" = Some "application/json"
    ∧ Header (w s') !! "Alt-Svc"
      = (if EnableH3AltSvc m then Some (altSvc (PublicPort m)) else None)
    ∧ Header (w s') !! "Access-Control-Allow-Origin"
      = (if EnableCORS m then Some "*" else None)
    ∧ Header (w s') !! "Access-Control-Allow-Headers"
      = (if EnableCORS m then Some "*" else None)
    ∧ (once m = OnceDone -> m' = m ∧ writes (w s') = [generatedConfig m]).
Proof.
  intros Hm Hw.
  destruct (ConfigHandler_GET m r s Hm) as (s' & Hrun & Hwr & Hst & Hh & _).
  assert (Hh0 : Header (w s) = ∅) by (rewrite Hw; reflexivity).
  assert (Hws : writes (w s) = []) by (rewrite Hw; reflexivity).
  assert (Hss : status (w s) = None) by (rewrite Hw; reflexivity).
  rewrite Hh0 in Hh. rewrite Hws in Hwr. rewrite Hss in Hst.
  eexists _, s'. split; [exact Hrun|]. split; [exact Hst|].
  rewrite Hh.
  split; [|split; [|split; [|split]]].
  - destruct (EnableCORS m), (EnableH3AltSvc m);
      repeat first [ rewrite lookup_insert_eq
                   | rewrite lookup_insert_ne by discriminate ]; reflexivity.
  - destruct (EnableCORS m), (EnableH3AltSvc m);
      repeat first [ rewrite lookup_insert_eq
                   | rewrite lookup_insert_ne by discriminate
                   | rewrite lookup_empty ]; reflexivity.
  - destruct (EnableCORS m), (EnableH3AltSvc m);
      repeat first [ rewrite lookup_insert_eq
                   | rewrite lookup_insert_ne by discriminate
                   | rewrite lookup_empty ]; reflexivity.
  - destruct (EnableCORS m), (EnableH3AltSvc m);
      repeat first [ rewrite lookup_insert_eq
                   | rewrite lookup_insert_ne by discriminate
                   | rewrite lookup_empty ]; reflexivity.
  - intros Ho. unfold once_Do in *. rewrite Ho in *.
    split; [reflexivity | exact Hwr].
Qed.

(** X13. When the write of the discovery document fails, [ConfigHandler]
    logs one line, "could not write response: " and the text of the error,
    whatever the error is: it does not consult [ignorableError], so a broken
    pipe is logged here. The document stays built. *)
Theorem config_write_failure_is_always_logged (m : Server) (r : Request)
    (s : State) (e : error) (rest : list (option error)) :
  Method r = MethodGet ->
  transport (w s) = Some e :: rest ->
  ∃ m' s', ConfigHandler json_MarshalIndent m r s = Returned m' s'
    ∧ logs s' = logs s ++ ["could not write response: " +:+ Error e]
    ∧ generatedConfig m'
      = generatedConfig (once_Do (generateConfig json_MarshalIndent) m)
    ∧ once m' = OnceDone.
Proof.
  intros Hm Htr.
  destruct (ConfigHandler_GET m r s Hm) as (s' & Hrun & _ & _ & _ & Hlg & _).
  rewrite Htr in Hlg.
  eexists _, s'. split; [exact Hrun|]. split; [exact Hlg|].
  split; [reflexivity|].
  unfold once_Do. destruct (once m) eqn:Ho;
    [reflexivity | reflexivity | exact Ho].
Qed.

End Config.

(** X14. With the handlers registered under the server's path prefix, each
    of the three URLs of the discovery document is the origin (scheme,
    ["://"], host and port) followed by a path that has a handler; the table
    of handlers has exactly the three paths [/small], [/large] and [/slurp]
    under the prefix, with or without counters. *)
Theorem advertised_urls_are_registered `{Syscall} (m : Server) (cors : bool)
    (bytesServed bytesReceived : option loc) :
  let table := CountingBulkHandlers (ContextPath m) cors
                 bytesServed bytesReceived in
  let origin := Scheme m +:+ "://" +:+ PublicHostPort m in
  (∃ p, generateSmallDownloadURL m = origin +:+ p ∧ is_Some (table !! p))
  ∧ (∃ p, generateLargeDownloadURL m = origin +:+ p ∧ is_Some (table !! p))
  ∧ (∃ p, generateUploadURL m = origin +:+ p ∧ is_Some (table !! p))
  ∧ dom table = {[ ContextPath m +:+ "/small"; ContextPath m +:+ "/large";
                   ContextPath m +:+ "/slurp" ]}
  ∧ dom (BulkHandlers (ContextPath m) cors) = dom table.
Proof.
  intros table origin. unfold table, origin, CountingBulkHandlers,
    BulkHandlers, generateSmallDownloadURL, generateLargeDownloadURL,
    generateUploadURL.
  match goal with
  | |- context [<[_ := ?a]> (<[_ := ?b]> (<[_ := ?c]> ∅))] =>
      destruct (handler_map_lookup (ContextPath m) a b c) as (H1 & H2 & H3)
  end.
  cbv zeta in H1, H2, H3.
  split; [|split; [|split; [|split]]].
  - exists (ContextPath m +:+ "/small").
    split; [rewrite !append_assoc; reflexivity | rewrite H1; eauto].
  - exists (ContextPath m +:+ "/large").
    split; [rewrite !append_assoc; reflexivity | rewrite H2; eauto].
  - exists (ContextPath m +:+ "/slurp").
    split; [rewrite !append_assoc; reflexivity | rewrite H3; eauto].
  - rewrite !dom_insert_L, dom_empty_L, (right_id_L ∅ (∪)), (assoc_L (∪)).
    reflexivity.
  - rewrite !dom_insert_L, !dom_empty_L. reflexivity.
Qed.

End DiscoveryMore.

Lemma reporter_logs_only_advances_witness :
  let at_counts := fun a b =>
    {| Discovery.PublicPort := 4043;
       Discovery.PublicHostPort := "nq.example.com:4043";
       Discovery.ContextPath := ""; Discovery.Scheme := "https";
       Discovery.EnableCORS := false; Discovery.EnableH3AltSvc := false;
       Discovery.BytesServed := a; Discovery.BytesReceived := b;
       Discovery.generatedConfig := []; Discovery.once := Discovery.OnceIdle |} in
  let before := [at_counts 0 0; at_counts 65536 10; at_counts 131072 10] in
  let after := [at_counts 131072 10; at_counts 7 10] in
  Forall (fun m =>
            Discovery.BytesServed m
              <= highest 0 (map Discovery.BytesServed before)
            ∧ Discovery.BytesReceived m
              <= highest 0 (map Discovery.BytesReceived before)) after ∧
  ∃ last s1 s2,
    PrintStats FormatInt before (sW []) = Returned last s1
    ∧ PrintStats FormatInt (before ++ after) (sW []) = Returned last s2
    ∧ logs s2 = logs s1.
Proof.
  intros at_counts before after.
  assert (Hq : Forall (fun m =>
            Discovery.BytesServed m
              <= highest 0 (map Discovery.BytesServed before)
            ∧ Discovery.BytesReceived m
              <= highest 0 (map Discovery.BytesReceived before)) after).
  { repeat constructor; vm_compute; discriminate. }
  split; [exact Hq|].
  apply (reporter_logs_only_advances FormatInt before after (sW []) Hq).
Defined.

Lemma config_headers_follow_configuration_witness :
  let r := {| Method := "GET"; Body := noBody |} in
  Method r = MethodGet ∧ w (sW []) = newResponse [] ∧
  ∃ m' s', @Discovery.ConfigHandler Discovery.linesW linux Discovery.mW r
             (sW []) = Returned m' s'
    ∧ status (w s') = Some StatusOK
    ∧ Header (w s') !! "Content-Type" = Some "application/json"
    ∧ Header (w s') !! "Alt-Svc"
      = (if Discovery.EnableH3AltSvc Discovery.mW
         then Some (altSvc (Discovery.PublicPort Discovery.mW))
         else None)
    ∧ Header (w s') !! "Access-Control-Allow-Origin"
      = (if Discovery.EnableCORS Discovery.mW then Some "*" else None)
    ∧ Header (w s') !! "Access-Control-Allow-Headers"
      = (if Discovery.EnableCORS Discovery.mW then Some "*" else None)
    ∧ (Discovery.once Discovery.mW = Discovery.OnceDone ->
       m' = Discovery.mW
       ∧ writes (w s') = [Discovery.generatedConfig Discovery.mW]).
Proof.
  intros r. split; [reflexivity|]. split; [reflexivity|].
  apply (@DiscoveryMore.config_headers_follow_configuration
           Discovery.linesW linux Discovery.mW r (sW []) []); reflexivity.
Defined.

Lemma config_write_failure_is_always_logged_witness :
  let r := {| Method := "GET"; Body := noBody |} in
  let e := wrapError "write tcp: broken pipe" (Errno 32) in
  Method r = MethodGet ∧ transport (w (sW [Some e])) = Some e :: [] ∧
  @ignorableError linux (Some e) = true ∧
  ∃ m' s', @Discovery.ConfigHandler Discovery.linesW linux Discovery.mW r
             (sW [Some e]) = Returned m' s'
    ∧ logs s' = logs (sW [Some e])
                ++ ["could not write response: " +:+ @Error linux e]
    ∧ Discovery.generatedConfig m'
      = Discovery.generatedConfig
          (Discovery.once_Do (Discovery.generateConfig Discovery.linesW)
             Discovery.mW)
    ∧ Discovery.once m' = Discovery.OnceDone.
Proof.
  intros r e. split; [reflexivity|]. split; [reflexivity|].
  split; [reflexivity|].
  apply (@DiscoveryMore.config_write_failure_is_always_logged
           Discovery.linesW linux Discovery.mW r (sW [Some e]) e []);
    reflexivity.
Defined.

Arguments written : simpl never.

(** The loop of [chunkedBodyWriter] is its turn, repeated. *)
Lemma chunkedLoop_turns (h : handlers) (n : Z) (s : State) :
  chunkedLoop h n s =
  match chunkedTurn h n s with
  | Returned (GoOn n') s' => chunkedLoop h n' s'
  | Returned (Return err) s' => Returned err s'
  | Panicked s' => Panicked s'
  end.
Proof.
  rewrite chunkedLoop_eq. unfold chunkedTurn.
  destruct (decide (n > 0)); [|reflexivity].
  destruct (decide (n >= chunkSize)); run_step;
    destruct (BytesServed h); cbn; try reflexivity;
    destruct (transport (w s)) as [|[e|] tr]; reflexivity.
Qed.

(** What one turn does, with a counter to count into. *)
Lemma chunkedTurn_run (h : handlers) (l : loc) (n : Z) (s : State) :
  BytesServed h = Some l -> 0 <= n ->
  ∃ r s' d,
    chunkedTurn h n s = Returned r s'
    ∧ 0 <= d <= n
    ∧ total (writes (w s')) = total (writes (w s)) + d
    ∧ advance (load (mem s) l) (load (mem s') l) = uint64 d
    ∧ match r with
      | GoOn n' => n' = n - d
      | Return None => d = n
      | Return (Some _) => True
      end.
Proof.
  intros Hl Hn. unfold chunkedTurn.
  assert (Hc : 0 < chunkSize) by (rewrite chunkSize_val; lia).
  destruct (decide (n > 0)).
  - destruct (decide (n >= chunkSize)); rewrite Hl; run_step.
    + assert (Ha : advance (load (mem s) l)
                     (uint64 (load (mem s) l + uint64 chunkSize))
                   = uint64 chunkSize).
      { rewrite advance_add. unfold uint64. apply Z.mod_mod. lia. }
      destruct (transport (w s)) as [|[e|] tr]; cbn;
        eexists _, _, chunkSize; (split; [reflexivity|]); cbn;
        rewrite total_app, total_cons, total_nil, len_buffed, load_insert_eq;
        repeat split; first [lia | exact Ha].
    + assert (Ha : advance (load (mem s) l)
                     (uint64 (load (mem s) l + uint64 n)) = uint64 n).
      { rewrite advance_add. unfold uint64. apply Z.mod_mod. lia. }
      destruct (transport (w s)) as [|[e|] tr]; cbn;
        eexists _, _, n; (split; [reflexivity|]); cbn;
        rewrite total_app, total_cons, total_nil, len_slice_to,
          load_insert_eq by lia;
        repeat split; first [lia | exact Ha].
  - cbn. exists (Return None), s, 0. rewrite advance_refl.
    repeat split; first [lia | reflexivity].
Qed.

Lemma written_cons (d : download) (ds : list download) :
  written (d :: ds) = total (writes (w (own d))) + written ds.
Proof. reflexivity. Qed.

Lemma written_insert (ds : list download) (t : nat) (d d' : download) :
  ds !! t = Some d ->
  written (<[t := d']> ds)
  = written ds - total (writes (w (own d))) + total (writes (w (own d'))).
Proof.
  revert t. induction ds as [|x ds IH]; intros t Ht; [discriminate|].
  destruct t as [|t]; cbn in Ht.
  - injection Ht as ->.
    change (<[0%nat := d']> (d :: ds)) with (d' :: ds).
    rewrite !written_cons. lia.
  - change (<[S t := d']> (x :: ds)) with (x :: <[t := d']> ds).
    rewrite !written_cons, (IH t Ht). lia.
Qed.

Lemma written_sizes (ds : list download) :
  Forall (fun d => at_turn d = Ended None) ds ->
  Forall download_ok ds ->
  written ds = foldr Z.add 0 (map asked ds).
Proof.
  induction ds as [|d ds IH]; intros He Hok; [reflexivity|].
  inversion He as [|? ? Hd He']; subst.
  inversion Hok as [|? ? Hdo Hok']; subst.
  unfold download_ok in Hdo. rewrite Hd in Hdo.
  rewrite written_cons, (IH He' Hok'), Hdo. reflexivity.
Qed.

Lemma pool_step_inv (h : handlers) (l : loc) (m0 : gmap loc Z)
    (p : pool) (t : nat) :
  BytesServed h = Some l ->
  Forall download_ok (downloads p) ->
  advance (load m0 l) (load (shared p) l) = uint64 (written (downloads p)) ->
  Forall download_ok (downloads (pool_step h p t))
  ∧ advance (load m0 l) (load (shared (pool_step h p t)) l)
    = uint64 (written (downloads (pool_step h p t))).
Proof.
  intros Hl Hok Hadv. unfold pool_step.
  destruct (downloads p !! t) as [d|] eqn:Ht; [|split; assumption].
  pose proof (Forall_lookup_1 _ _ _ _ Hok Ht) as Hd.
  unfold download_ok in Hd.
  destruct (at_turn d) as [n| |] eqn:Hat; [|split; assumption..].
  destruct Hd as [Hn Hsz].
  match goal with |- context [chunkedTurn h n ?s0] =>
    destruct (chunkedTurn_run h l n s0 Hl Hn)
      as (r & s' & k & Hrun & Hk & Htot & Ha & Hr); rewrite Hrun
  end.
  cbn in Htot, Ha.
  assert (Hadv' : advance (load m0 l) (load (mem s') l)
                  = uint64 (written (downloads p) + k))
    by (eapply advance_trans; [exact Hadv | exact Ha]).
  destruct r as [n'|[e|]]; cbn.
  - split.
    + apply Forall_insert; [exact Hok|].
      unfold download_ok. cbn. lia.
    + rewrite (written_insert _ _ d) by exact Ht. cbn.
      rewrite Hadv'. f_equal. lia.
  - split.
    + apply Forall_insert; [exact Hok|].
      unfold download_ok. cbn. lia.
    + rewrite (written_insert _ _ d) by exact Ht. cbn.
      rewrite Hadv'. f_equal. lia.
  - split.
    + apply Forall_insert; [exact Hok|].
      unfold download_ok. cbn. lia.
    + rewrite (written_insert _ _ d) by exact Ht. cbn.
      rewrite Hadv'. f_equal. lia.
Qed.

Lemma pool_run_inv (h : handlers) (l : loc) (m0 : gmap loc Z)
    (schedule : list nat) :
  BytesServed h = Some l ->
  ∀ p, Forall download_ok (downloads p) ->
  advance (load m0 l) (load (shared p) l) = uint64 (written (downloads p)) ->
  Forall download_ok (downloads (pool_run h p schedule))
  ∧ advance (load m0 l) (load (shared (pool_run h p schedule)) l)
    = uint64 (written (downloads (pool_run h p schedule))).
Proof.
  intros Hl. induction schedule as [|t schedule IH]; intros p Hok Hadv;
    [split; assumption|].
  change (pool_run h p (t :: schedule))
    with (pool_run h (pool_step h p t) schedule).
  destruct (pool_step_inv h l m0 p t Hl Hok Hadv) as [Hok' Hadv'].
  apply IH; assumption.
Qed.

(** X17. Any number of downloads running concurrently over one store, their
    loop turns interleaved in any order: the served counter has advanced by
    exactly the bytes all of them together have passed to [Write], no
    download has panicked, and when all have ended with nil the advance is
    the sum of the lengths asked for (modulo 2^64). *)
Theorem concurrent_downloads_lose_no_update (h : handlers) (l : loc)
    (m0 : gmap loc Z) (reqs : list (Z * list (option error)))
    (schedule : list nat) :
  BytesServed h = Some l ->
  Forall (fun req => 0 <= req.1) reqs ->
  let p := pool_run h {| shared := m0; downloads := map newDownload reqs |}
             schedule in
  advance (load m0 l) (load (shared p) l) = uint64 (written (downloads p))
  ∧ Forall (fun d => at_turn d ≠ Crashed) (downloads p)
  ∧ (Forall (fun d => at_turn d = Ended None) (downloads p) ->
     advance (load m0 l) (load (shared p) l)
     = uint64 (foldr Z.add 0 (map fst reqs))).
Proof.
  intros Hl Hreqs p.
  assert (Hstart : Forall download_ok (map newDownload reqs)
                   ∧ written (map newDownload reqs) = 0).
  { clear -Hreqs. induction Hreqs as [|req reqs Hr _ [IH1 IH2]].
    - split; [constructor | reflexivity].
    - split.
      + constructor; [|exact IH1]. unfold download_ok. cbn.
        rewrite total_nil. lia.
      + cbn [map]. rewrite written_cons, IH2. cbn. rewrite total_nil.
        reflexivity. }
  destruct Hstart as [Hok0 Hw0].
  destruct (pool_run_inv h l m0 schedule Hl
              {| shared := m0; downloads := map newDownload reqs |})
    as [Hok Hadv]; [exact Hok0 | cbn; rewrite Hw0; apply advance_refl |].
  fold p in Hok, Hadv.
  assert (Hsizes : map asked (downloads p) = map fst reqs).
  { unfold p. clear.
    assert (Hgen : ∀ q, map asked (downloads (pool_run h q schedule))
                        = map asked (downloads q)).
    { induction schedule as [|t schedule IH]; intros q; [reflexivity|].
      change (pool_run h q (t :: schedule))
        with (pool_run h (pool_step h q t) schedule).
      rewrite IH. unfold pool_step.
      destruct (downloads q !! t) as [d|] eqn:Ht; [|reflexivity].
      destruct (at_turn d); [|reflexivity..].
      match goal with |- context [chunkedTurn h ?n ?s0] =>
        destruct (chunkedTurn h n s0) as [[n'|err] s'|s']
      end; cbn;
        (rewrite list_fmap_insert; apply list_insert_id;
         rewrite list_lookup_fmap, Ht; reflexivity). }
    rewrite Hgen. cbn [downloads].
    induction reqs as [|req reqs IH]; [reflexivity|].
    cbn. rewrite IH. reflexivity. }
  split; [exact Hadv|]. split.
  - eapply Forall_impl; [exact Hok|]. intros d Hd Hc.
    unfold download_ok in Hd. rewrite Hc in Hd. exact Hd.
  - intros Hend. rewrite Hadv, (written_sizes _ Hend Hok), Hsizes.
    reflexivity.
Qed.

Lemma concurrent_downloads_lose_no_update_witness :
  let reqs := [(1, []); (65537, [None; Some (Errno 32)]); (1, [])] in
  let schedule := [2; 1; 0; 1; 1; 0]%nat in
  BytesServed hW = Some 1%positive ∧
  Forall (fun req : Z * list (option error) => 0 <= req.1) reqs ∧
  let p := pool_run hW {| shared := ∅; downloads := map newDownload reqs |}
             schedule in
  advance (load ∅ 1%positive) (load (shared p) 1%positive)
    = uint64 (written (downloads p))
  ∧ Forall (fun d => at_turn d ≠ Crashed) (downloads p)
  ∧ (Forall (fun d => at_turn d = Ended None) (downloads p) ->
     advance (load ∅ 1%positive) (load (shared p) 1%positive)
     = uint64 (foldr Z.add 0 (map fst reqs))).
Proof.
  intros reqs schedule. split; [reflexivity|].
  assert (Hr : Forall (fun req : Z * list (option error) => 0 <= req.1) reqs)
    by (repeat constructor; cbn; lia).
  split; [exact Hr|].
  apply (concurrent_downloads_lose_no_update hW 1%positive ∅ reqs schedule);
    [reflexivity | exact Hr].
Defined.

(** Three small downloads, their turns taken in any of these orders: every
    one ends with nil and the served counter stands at three. *)
Example three_small_downloads :
  let reqs := [(1, []); (1, []); (1, [])] in
  Forall (fun schedule =>
    let p := pool_run hW {| shared := ∅; downloads := map newDownload reqs |}
               schedule in
    map at_turn (downloads p) = [Ended None; Ended None; Ended None]
    ∧ load (shared p) 1%positive = 3)
    [[0; 1; 2]; [2; 1; 0]; [1; 1; 0; 2; 2]; [2; 0; 0; 1]]%nat.
Proof.
  repeat (constructor; [vm_compute; split; reflexivity|]). constructor.
Qed.

(** X18. With a nil served counter, requests that the download handlers
    refuse (methods other than GET and HEAD) and HEAD requests to [/large]
    are served without a panic and without touching the store, while a HEAD
    request to [/small] panics like a GET. *)
Theorem requests_safe_without_counters `{Syscall} (h : handlers)
    (r : Request) (s : State) :
  BytesServed h = None ->
  (Method r ≠ MethodGet -> Method r ≠ MethodHead ->
     (∃ s', smallHandler h r s = Returned tt s' ∧ mem s' = mem s)
     ∧ (∃ s', largeHandler h r s = Returned tt s' ∧ mem s' = mem s))
  ∧ (Method r = MethodHead ->
     (∃ s', smallHandler h r s = Panicked s')
     ∧ (∃ s', largeHandler h r s = Returned tt s' ∧ mem s' = mem s)).
Proof.
  intros Hnil. split.
  - intros Hg Hh. unfold smallHandler, largeHandler.
    destruct (decide (Method r ≠ MethodGet ∧ Method r ≠ MethodHead))
      as [_|Hn]; [|exfalso; apply Hn; split; assumption].
    run_step. split; eexists; split; reflexivity.
  - intros Hh. split.
    + unfold smallHandler, setCors.
      destruct (decide (Method r ≠ MethodGet ∧ Method r ≠ MethodHead))
        as [[_ Hc]|_]; [contradiction|].
      run_step.
      destruct (EnableCORS h); cbn;
        match goal with |- context [chunkedBodyWriter h ?N ?s1] =>
          destruct (chunkedBodyWriter_nil h N s1 Hnil ltac:(reflexivity))
            as [s' Hrun]
        end; rewrite Hrun; eauto.
    + unfold largeHandler, setCors.
      destruct (decide (Method r ≠ MethodGet ∧ Method r ≠ MethodHead))
        as [[_ Hc]|_]; [contradiction|].
      destruct (decide (Method r ≠ MethodGet)) as [_|Hg];
        [|exfalso; apply Hg; rewrite Hh; discriminate].
      run_step. destruct (EnableCORS h); cbn; eauto.
Qed.

Lemma requests_safe_without_counters_witness :
  let h := {| EnableCORS := true; BytesServed := None;
              BytesReceived := None |} in
  let post := {| Method := "POST"; Body := noBody |} in
  let head := {| Method := "HEAD"; Body := noBody |} in
  BytesServed h = None ∧
  Method post ≠ MethodGet ∧ Method post ≠ MethodHead ∧
  Method head = MethodHead ∧
  ((∃ s', @smallHandler linux h post (sW []) = Returned tt s'
      ∧ mem s' = mem (sW []))
   ∧ (∃ s', @largeHandler linux h post (sW []) = Returned tt s'
        ∧ mem s' = mem (sW [])))
  ∧ ((∃ s', @smallHandler linux h head (sW []) = Panicked s')
     ∧ (∃ s', @largeHandler linux h head (sW []) = Returned tt s'
          ∧ mem s' = mem (sW []))).
Proof.
  intros h post head.
  assert (Hg : Method post ≠ MethodGet) by discriminate.
  assert (Hh : Method post ≠ MethodHead) by discriminate.
  split; [reflexivity|]. split; [exact Hg|]. split; [exact Hh|].
  split; [reflexivity|]. split.
  - apply (@requests_safe_without_counters linux h post (sW []) eq_refl);
      assumption.
  - apply (@requests_safe_without_counters linux h head (sW []) eq_refl).
    reflexivity.
Defined.
